(** * Transaction pipeline of financial-hub: parsing, identity, merge and
    categorization, embedded from the TypeScript sources.

    - [scripts/parse-transactions.ts], kept as [src/unnamed/part_000]
      (locale parsers, [generateId], [transformToTransactions],
      [mergeTransactions]);
    - [scripts/categorization-rules.ts], kept as the second part of
      [src/scripts/check-invalid-categories.ts] ([containsAny],
      [getCategorizationRules], [categorizeTransaction],
      [applyRulesToTransactions]).

    JavaScript strings are sequences of 16-bit code units; this development
    covers the strings whose code units are below 256 and writes them as
    [string], one [ascii] per code unit.  Numbers are IEEE-754 binary64
    values, written as [spec_float] at precision 53 and exponent bound
    1024. *)

From Stdlib Require Import ZArith String Ascii SpecFloat Lia Sorted.
From stdpp Require Import base option list strings gmap sorting.

Local Open Scope string_scope.

#[local] Set Warnings "-clear-no-such-hyp".

(** ** ECMAScript built-ins used by the scripts *)

Module JS.

(** [WhiteSpace] and [LineTerminator] code units below 256:
    TAB, LF, VT, FF, CR, SP and NBSP. *)
Definition isWhiteSpace (c : ascii) : bool :=
  let n := nat_of_ascii c in
  ((9 <=? n) && (n <=? 13) || (n =? 32) || (n =? 160))%nat.

Fixpoint trimStart (s : string) : string :=
  match s with
  | EmptyString => EmptyString
  | String c s' => if isWhiteSpace c then trimStart s' else s
  end.

Fixpoint trimEnd (s : string) : string :=
  match s with
  | EmptyString => EmptyString
  | String c s' =>
      match trimEnd s' with
      | EmptyString => if isWhiteSpace c then EmptyString else String c EmptyString
      | r => String c r
      end
  end.

(** [String.prototype.trim] *)
Definition trim (s : string) : string := trimEnd (trimStart s).

(** Lower-case mapping of one code unit: A-Z, and the Latin-1 capitals
    U+00C0..U+00DE except the multiplication sign U+00D7. *)
Definition lowerChar (c : ascii) : ascii :=
  let n := nat_of_ascii c in
  if ((65 <=? n) && (n <=? 90) || (192 <=? n) && (n <=? 222) && negb (n =? 215))%nat
  then ascii_of_nat (n + 32)
  else c.

(** [String.prototype.toLowerCase] *)
Fixpoint toLowerCase (s : string) : string :=
  match s with
  | EmptyString => EmptyString
  | String c s' => String (lowerChar c) (toLowerCase s')
  end.

(** [String.prototype.includes]: [pat] occurs in [s] at some position. *)
Fixpoint includes (s pat : string) : bool :=
  String.prefix pat s ||
  match s with
  | EmptyString => false
  | String _ s' => includes s' pat
  end.

(** Truthiness of a string value: every string but the empty one. *)
Definition truthy (s : string) : bool :=
  match s with EmptyString => false | _ => true end.

(** [s.split(sep)] for a one-unit separator: the pieces between the
    occurrences of [sep], of which there is always at least one. *)
Fixpoint split (sep : ascii) (s : string) : list string :=
  match s with
  | EmptyString => [EmptyString]
  | String c s' =>
      if Ascii.eqb c sep then EmptyString :: split sep s'
      else match split sep s' with
           | [] => [String c EmptyString]
           | piece :: pieces => String c piece :: pieces
           end
  end.

(** [s.padStart(2, '0')] *)
Definition padStart2 (s : string) : string :=
  match s with
  | EmptyString => "00"
  | String c EmptyString => String "0" s
  | _ => s
  end.

(** [s.replace(from, to)] with a one-unit string pattern: only the first
    occurrence is replaced. *)
Fixpoint replace (from to : ascii) (s : string) : string :=
  match s with
  | EmptyString => EmptyString
  | String c s' =>
      if Ascii.eqb c from then String to s' else String c (replace from to s')
  end.

(** [s.substring(0, n)] *)
Definition substring0 (n : nat) (s : string) : string := String.substring 0 n s.

(** *** Numbers *)

Definition number : Type := spec_float.

Definition prec : Z := 53.
Definition emax : Z := 1024.

Definition NaN : number := S754_nan.
Definition isNaN (x : number) : bool :=
  match x with S754_nan => true | _ => false end.

(** [x < y] *)
Definition lt (x y : number) : bool := SFltb x y.

(** [Math.abs] *)
Definition Math_abs (x : number) : number := SFabs x.

(** The number of a non-negative integer literal. *)
Definition ofNat (n : N) : number := binary_normalize prec emax (Z.of_N n) 0 false.

(** The number nearest to [(-1)^neg * M * 10^E] (ties to even): an integer
    is rounded directly, a proper fraction through the correctly rounded
    quotient of [M] by the power of ten. *)
Definition decimalToNumber (neg : bool) (M E : Z) : number :=
  match M with
  | Z0 => S754_zero neg
  | Zpos m =>
      if (0 <=? E)%Z then binary_round prec emax neg (m * Z.to_pos (10 ^ E)) 0
      else SFdiv prec emax (S754_finite neg m 0)
                 (S754_finite false (Z.to_pos (10 ^ (- E))) 0)
  | Zneg _ => S754_nan
  end.

Definition isDigit (c : ascii) : bool :=
  let n := nat_of_ascii c in ((48 <=? n) && (n <=? 57))%nat.

Definition digitValue (c : ascii) : Z := Z.of_nat (nat_of_ascii c) - 48.

(** The longest run of decimal digits at the head of [s], and what follows. *)
Fixpoint takeDigits (s : string) : list Z * string :=
  match s with
  | EmptyString => ([], EmptyString)
  | String c s' =>
      if isDigit c then let '(ds, rest) := takeDigits s' in (digitValue c :: ds, rest)
      else ([], s)
  end.

Definition digitsValue (ds : list Z) : Z :=
  fold_left (fun acc d => 10 * acc + d)%Z ds 0%Z.

Definition takeSign (s : string) : bool * string :=
  match s with
  | String "-" r => (true, r)
  | String "+" r => (false, r)
  | _ => (false, s)
  end.

(** The [ExponentPart] at the head of [s], if there is a complete one. *)
Definition exponentPart (s : string) : Z :=
  match s with
  | String c r =>
      if Ascii.eqb c "e" || Ascii.eqb c "E" then
        let '(neg, r') := takeSign r in
        match takeDigits r' with
        | ([], _) => 0%Z
        | (ds, _) => if neg then (- digitsValue ds)%Z else digitsValue ds
        end
      else 0%Z
  | EmptyString => 0%Z
  end.

(** [parseFloat]: leading white space is skipped, the longest prefix that
    is a [StrDecimalLiteral] is read, and [NaN] results when there is none. *)
Definition parseFloat (s : string) : number :=
  let '(neg, s2) := takeSign (trimStart s) in
  if String.prefix "Infinity" s2 then S754_infinity neg
  else
    let '(ip, s3) := takeDigits s2 in
    let '(fp, s4) :=
      match s3 with
      | String "." r => takeDigits r
      | _ => ([], s3)
      end in
    match ip, fp with
    | [], [] => NaN
    | _, _ =>
        decimalToNumber neg (digitsValue (ip ++ fp))
          (exponentPart s4 - Z.of_nat (length fp))
    end.

(** *** Number to string *)

Definition digitChar (d : Z) : ascii := ascii_of_nat (Z.to_nat d + 48).

(** The decimal digits of a non-negative integer, most significant first;
    [fuel] bounds their number. *)
Fixpoint digitsOf (fuel : nat) (n : Z) (acc : string) : string :=
  match fuel with
  | O => acc
  | S fuel' =>
      let acc' := String (digitChar (n mod 10)) acc in
      if (n <? 10)%Z then acc' else digitsOf fuel' (n / 10) acc'
  end.

Definition intToString (n : Z) : string :=
  digitsOf (S (Z.to_nat (Z.log2 n))) n EmptyString.

Fixpoint zeros (n : nat) : string :=
  match n with O => EmptyString | S n' => String "0" (zeros n') end.

(** [N / D < 10^n] for positive [N], [D]. *)
Definition belowPow10 (N D n : Z) : bool :=
  if (0 <=? n)%Z then (N <? D * 10 ^ n)%Z else (N * 10 ^ (- n) <? D)%Z.

(** The least [n] with [N / D < 10^n]. *)
Definition decimalMagnitude (N D : Z) : Z :=
  let a := ((Z.log2 N - Z.log2 D - 1) * 30103 / 100000 - 1)%Z in
  match find (belowPow10 N D) [a; a + 1; a + 2; a + 3; a + 4]%Z with
  | Some n => n
  | None => (a + 5)%Z
  end.

(** For the positive number [x = m * 2^e]: the digits [s], their count [k]
    and the exponent [n] of Number::toString, i.e. the shortest [s] such
    that [s * 10^(n-k)] rounds to [x], closest to [x] among those. *)
Definition shortestDigits (m : positive) (e : Z) : Z * Z * Z :=
  let x := S754_finite false m e in
  let N := (Zpos m * 2 ^ Z.max e 0)%Z in
  let D := (2 ^ Z.max (- e) 0)%Z in
  let n := decimalMagnitude N D in
  let candidate (k : Z) : option (Z * Z * Z) :=
    let Ns := (N * 10 ^ Z.max (k - n) 0)%Z in
    let Ds := (D * 10 ^ Z.max (n - k) 0)%Z in
    let lo := (Ns / Ds)%Z in
    let hi := (lo + 1)%Z in
    let ok (c : Z) := SFeqb (decimalToNumber false c (n - k)) x in
    let up := if (hi =? 10 ^ k)%Z then (10 ^ (k - 1), k, n + 1)%Z else (hi, k, n) in
    match ok lo, ok hi with
    | true, false => Some (lo, k, n)
    | false, true => Some up
    | true, true =>
        match (2 * Ns ?= (2 * lo + 1) * Ds)%Z with
        | Lt => Some (lo, k, n)
        | Gt => Some up
        | Eq => if Z.even lo then Some (lo, k, n) else Some up
        end
    | false, false => None
    end in
  let fix search (ks : list Z) : Z * Z * Z :=
    match ks with
    | [] => (Zpos m, 0, 0)%Z
    | k :: ks' => match candidate k with Some r => r | None => search ks' end
    end in
  search [1; 2; 3; 4; 5; 6; 7; 8; 9; 10; 11; 12; 13; 14; 15; 16; 17]%Z.

Definition exponentSuffix (n : Z) : string :=
  String "e" (String (if (0 <? n - 1)%Z then "+" else "-")
    (intToString (Z.abs (n - 1)))).

Definition formatDigits (s k n : Z) : string :=
  let ds := intToString s in
  if ((k <=? n) && (n <=? 21))%Z then ds ++ zeros (Z.to_nat (n - k))
  else if ((0 <? n) && (n <=? 21))%Z then
    String.substring 0 (Z.to_nat n) ds ++ "." ++
    String.substring (Z.to_nat n) (Z.to_nat (k - n)) ds
  else if ((-6 <? n) && (n <=? 0))%Z then "0." ++ zeros (Z.to_nat (- n)) ++ ds
  else if (k =? 1)%Z then ds ++ exponentSuffix n
  else String.substring 0 1 ds ++ "." ++
       String.substring 1 (Z.to_nat (k - 1)) ds ++ exponentSuffix n.

(** Number::toString in radix 10, as used by template literals. *)
Definition Number_toString (x : number) : string :=
  match x with
  | S754_nan => "NaN"
  | S754_zero _ => "0"
  | S754_infinity s => (if s then "-" else "") ++ "Infinity"
  | S754_finite s m e =>
      let '(d, k, n) := shortestDigits m e in
      (if s then "-" else "") ++ formatDigits d k n
  end.

(** *** Arrays *)

(** [SortCompare]: the value the comparator returned, with NaN (no value)
    read as +0. *)
Definition SortCompare {A : Type} (comparefn : A -> A -> option Z) (x y : A) : Z :=
  match comparefn x y with Some v => v | None => 0%Z end.

(** [x] is placed behind the elements it must follow and before the first
    element it need not follow. *)
Fixpoint sortInsert {A : Type} (comparefn : A -> A -> option Z) (x : A) (l : list A) : list A :=
  match l with
  | [] => [x]
  | y :: l' =>
      if (0 <? SortCompare comparefn x y)%Z then y :: sortInsert comparefn x l'
      else x :: l
  end.

(** [Array.prototype.sort(comparefn)], a stable sort: elements the
    comparator does not order keep their relative positions.  For a
    comparator that is a consistent ordering this fixes the result.  For one
    that is not, the standard leaves the order to the engine; here an
    element moves only past elements that the comparator puts strictly
    before it. *)
Definition sort {A : Type} (comparefn : A -> A -> option Z) (l : list A) : list A :=
  fold_right (sortInsert comparefn) [] l.

(** *** Dates *)

Definition isLeapYear (y : Z) : bool :=
  ((y mod 4 =? 0) && negb (y mod 100 =? 0) || (y mod 400 =? 0))%Z.

Definition daysInMonth (y m : Z) : Z :=
  if (m =? 2)%Z then (if isLeapYear y then 29 else 28)%Z
  else if ((m =? 4) || (m =? 6) || (m =? 9) || (m =? 11))%Z then 30%Z
  else 31%Z.

(** Days between 1970-01-01 and the given day of the proleptic Gregorian
    calendar. *)
Definition daysFromCivil (y m d : Z) : Z :=
  let y' := (if m <=? 2 then y - 1 else y)%Z in
  let era := (y' / 400)%Z in
  let yoe := (y' - era * 400)%Z in
  let doy := ((153 * (if 2 <? m then m - 3 else m + 9) + 2) / 5 + d - 1)%Z in
  let doe := (yoe * 365 + yoe / 4 - yoe / 100 + doy)%Z in
  (era * 146097 + doe - 719468)%Z.

Definition digitsExactly (n : nat) (s : string) : option Z :=
  match takeDigits s with
  | (ds, EmptyString) => if (length ds =? n)%nat then Some (digitsValue ds) else None
  | _ => None
  end.

(** [new Date(s).getTime()] for the date-only form [YYYY-MM-DD] of the
    date-time string format: midnight UTC of that day in milliseconds, and
    no value (an invalid date, whose time is NaN) for any other string. *)
Definition isoDateTime (s : string) : option Z :=
  match split "-" s with
  | [ys; ms; ds] =>
      match digitsExactly 4 ys, digitsExactly 2 ms, digitsExactly 2 ds with
      | Some y, Some m, Some d =>
          if ((1 <=? m) && (m <=? 12) && (1 <=? d) && (d <=? daysInMonth y m))%Z
          then Some (daysFromCivil y m d * 86400000)%Z
          else None
      | _, _, _ => None
      end
  | _ => None
  end.

End JS.

(** ** SHA-256 (FIPS 180-4) over bytes, and Node's
    [createHash('sha256').update(s).digest('hex')] *)

Module SHA256.

Local Open Scope Z_scope.

(** The first 64 primes. *)
Definition isPrime (n : Z) : bool :=
  forallb (fun d => negb (n mod d =? 0)) (map Z.of_nat (seq 2 (Z.to_nat n - 2))).

Definition primes : list Z :=
  Eval vm_compute in List.filter isPrime (map Z.of_nat (seq 2 310)).

(** The integer part of the cube root of [n], found between [lo] and [hi]. *)
Fixpoint cubeRoot (fuel : nat) (lo hi n : Z) : Z :=
  match fuel with
  | O => lo
  | S fuel' =>
      let mid := (lo + hi + 1) / 2 in
      if mid * mid * mid <=? n then cubeRoot fuel' mid hi n
      else cubeRoot fuel' lo (mid - 1) n
  end.

(** The round constants: the first 32 bits of the fractional parts of the
    cube roots of the first 64 primes. *)
Definition K : list Z :=
  Eval vm_compute in
    map (fun p => cubeRoot 48 0 (2 ^ 40) (p * 2 ^ 96) mod 2 ^ 32) primes.

(** The initial hash value: the first 32 bits of the fractional parts of
    the square roots of the first 8 primes. *)
Definition H0 : list Z :=
  Eval vm_compute in
    map (fun p => Z.sqrt (p * 2 ^ 64) mod 2 ^ 32) (firstn 8 primes).

Definition add32 (a b : Z) : Z := Z.land (a + b) 0xffffffff.
Definition rotr (n x : Z) : Z :=
  Z.lor (Z.shiftr x n) (Z.land (Z.shiftl x (32 - n)) 0xffffffff).
Definition Ch (x y z : Z) : Z :=
  Z.lxor (Z.land x y) (Z.land (Z.lxor x 0xffffffff) z).
Definition Maj (x y z : Z) : Z :=
  Z.lxor (Z.lxor (Z.land x y) (Z.land x z)) (Z.land y z).
Definition Sigma0 (x : Z) : Z := Z.lxor (Z.lxor (rotr 2 x) (rotr 13 x)) (rotr 22 x).
Definition Sigma1 (x : Z) : Z := Z.lxor (Z.lxor (rotr 6 x) (rotr 11 x)) (rotr 25 x).
Definition sigma0 (x : Z) : Z := Z.lxor (Z.lxor (rotr 7 x) (rotr 18 x)) (Z.shiftr x 3).
Definition sigma1 (x : Z) : Z := Z.lxor (Z.lxor (rotr 17 x) (rotr 19 x)) (Z.shiftr x 10).

(** The padded message: a one bit, zero bits up to 56 modulo 64 bytes, and
    the bit length on eight bytes. *)
Definition pad (msg : list Z) : list Z :=
  let len := Z.of_nat (length msg) in
  let zeroes := Z.to_nat ((55 - len) mod 64) in
  msg ++ [0x80] ++ repeat 0 zeroes ++
  map (fun i => Z.land (Z.shiftr (8 * len) (8 * (7 - i))) 0xff) [0; 1; 2; 3; 4; 5; 6; 7].

(** Big-endian 32-bit words of a byte sequence. *)
Fixpoint words (bytes : list Z) : list Z :=
  match bytes with
  | a :: b :: c :: d :: rest =>
      Z.lor (Z.lor (Z.lor (Z.shiftl a 24) (Z.shiftl b 16)) (Z.shiftl c 8)) d :: words rest
  | _ => []
  end.

(** The message schedule, most recent word first. *)
Fixpoint schedule (n : nat) (w : list Z) : list Z :=
  match n with
  | O => w
  | S n' =>
      let at_ i := nth i w 0 in
      schedule n'
        (add32 (add32 (sigma1 (at_ 1%nat)) (at_ 6%nat))
               (add32 (sigma0 (at_ 14%nat)) (at_ 15%nat)) :: w)
  end.

Definition round (st : list Z) (kw : Z * Z) : list Z :=
  match st with
  | [a; b; c; d; e; f; g; h] =>
      let t1 := add32 (add32 (add32 h (Sigma1 e)) (add32 (Ch e f g) (fst kw))) (snd kw) in
      let t2 := add32 (Sigma0 a) (Maj a b c) in
      [add32 t1 t2; a; b; c; add32 d t1; e; f; g]
  | _ => st
  end.

Definition compress (st : list Z) (block : list Z) : list Z :=
  let w := rev (schedule 48 (rev block)) in
  zip_with add32 st (fold_left round (combine K w) st).

Fixpoint blocks (n : nat) (ws : list Z) (st : list Z) : list Z :=
  match n with
  | O => st
  | S n' => blocks n' (skipn 16 ws) (compress st (firstn 16 ws))
  end.

Definition digest (msg : list Z) : list Z :=
  let ws := words (pad msg) in
  blocks (length ws / 16) ws H0.

Definition hexDigit (n : Z) : ascii :=
  ascii_of_nat (Z.to_nat (if n <? 10 then n + 48 else n + 87)).

Definition hexWord (w : Z) : string :=
  fold_right (fun i acc => String (hexDigit (Z.land (Z.shiftr w (4 * i)) 0xf)) acc)
    EmptyString [7; 6; 5; 4; 3; 2; 1; 0].

(** UTF-8 encoding of a string of code units below 256. *)
Fixpoint utf8 (s : string) : list Z :=
  match s with
  | EmptyString => []
  | String c s' =>
      let n := Z.of_nat (nat_of_ascii c) in
      if n <? 128 then n :: utf8 s'
      else Z.lor 0xc0 (Z.shiftr n 6) :: Z.lor 0x80 (Z.land n 0x3f) :: utf8 s'
  end.

Definition hex (s : string) : string :=
  fold_right (fun w acc => hexWord w ++ acc)%string EmptyString (digest (utf8 s)).

End SHA256.

(** ** The transaction record ([ParsedTransaction]) *)

Inductive TransactionType : Type := income | expense.

Module Tx.
Record t : Type := mk {
  id : string;
  date : string;
  description : string;
  descriptionOverride : option string;
  amount : JS.number;
  category : string;
  categoryOverride : option string;
  account : string;
  type : TransactionType
}.

(** The object spread [{ ...transaction, category: c }]. *)
Definition with_category (x : t) (c : string) : t :=
  mk (id x) (date x) (description x) (descriptionOverride x) (amount x)
     c (categoryOverride x) (account x) (type x).
End Tx.

Abbreviation ParsedTransaction := Tx.t.

(** ** Categorization engine ([categorization-rules.ts]) *)

Record CategorizationRule : Type := {
  name : string;
  category : string;
  match_ : ParsedTransaction -> bool
}.

Definition TransactionType_eqb (a b : TransactionType) : bool :=
  match a, b with
  | income, income | expense, expense => true
  | _, _ => false
  end.

(** [keywords.some(k => lowerDescription.includes(k.toLowerCase()))] *)
Definition containsAny (description : string) (keywords : list string) : bool :=
  let lowerDescription := JS.toLowerCase description in
  existsb (fun keyword => JS.includes lowerDescription (JS.toLowerCase keyword)) keywords.

Definition getCategorizationRules : list CategorizationRule :=
  [ {| name := "Salary"; category := "salary";
       match_ := fun t =>
         TransactionType_eqb (Tx.type t) income &&
         containsAny (Tx.description t)
           ["payroll"; "salary"; "paycheck"; "direct deposit"] |};
    {| name := "Rent"; category := "rent";
       match_ := fun t => containsAny (Tx.description t) ["rent"; "lease"] |};
    {| name := "Groceries"; category := "groceries";
       match_ := fun t =>
         containsAny (Tx.description t)
           ["grocery"; "market"; "supermart"; "fresh mart"] |};
    {| name := "Dining"; category := "dining";
       match_ := fun t =>
         containsAny (Tx.description t)
           ["cafe"; "restaurant"; "bistro"; "diner"; "takeout"] |};
    {| name := "Transport"; category := "transport";
       match_ := fun t =>
         containsAny (Tx.description t)
           ["transit"; "metro"; "bus"; "rail"; "uber"; "lyft"; "fuel"; "gas"] |};
    {| name := "Utilities"; category := "utilities";
       match_ := fun t =>
         containsAny (Tx.description t)
           ["electric"; "water"; "utility"; "internet"; "phone"] |};
    {| name := "Subscriptions"; category := "subscriptions";
       match_ := fun t =>
         containsAny (Tx.description t)
           ["subscription"; "streaming"; "music"; "cloud"; "software"] |};
    {| name := "Shopping"; category := "shopping";
       match_ := fun t =>
         containsAny (Tx.description t)
           ["store"; "online order"; "retail"; "shop"] |};
    {| name := "Entertainment"; category := "entertainment";
       match_ := fun t =>
         containsAny (Tx.description t)
           ["cinema"; "movie"; "concert"; "theater"; "game"] |};
    {| name := "Health"; category := "health";
       match_ := fun t =>
         containsAny (Tx.description t)
           ["pharmacy"; "clinic"; "hospital"; "dentist"] |};
    {| name := "Travel"; category := "travel";
       match_ := fun t =>
         containsAny (Tx.description t)
           ["airlines"; "hotel"; "airbnb"; "booking"] |};
    {| name := "Education"; category := "education";
       match_ := fun t =>
         containsAny (Tx.description t)
           ["course"; "tuition"; "academy"; "workshop"] |};
    {| name := "Pets"; category := "pets";
       match_ := fun t => containsAny (Tx.description t) ["pet"; "vet"; "pet food"] |};
    {| name := "Savings"; category := "savings";
       match_ := fun t =>
         containsAny (Tx.description t)
           ["transfer to savings"; "savings transfer"] |} ].

(** The [for (const rule of rules)] loop with its early [return]; falling
    out of the loop yields the pending sentinel. *)
Fixpoint categorizeWith (rules : list CategorizationRule)
    (transaction : ParsedTransaction) : string :=
  match rules with
  | [] => "pendiente"
  | rule :: rest =>
      if match_ rule transaction then category rule
      else categorizeWith rest transaction
  end.

Definition categorizeTransaction (transaction : ParsedTransaction) : string :=
  let rules := getCategorizationRules in
  categorizeWith rules transaction.

(** [transaction.categoryOverride && transaction.categoryOverride.trim()]
    as a condition: the field is present, non-empty, and non-empty once
    trimmed. *)
Definition hasOverride (o : option string) : bool :=
  match o with
  | None => false
  | Some s => JS.truthy s && JS.truthy (JS.trim s)
  end.

(** The callback of [transactions.map(...)]. *)
Definition applyRulesTo (preserveManualCategories : bool)
    (transaction : ParsedTransaction) : ParsedTransaction :=
  if hasOverride (Tx.categoryOverride transaction) then transaction
  else if preserveManualCategories
          && negb (String.eqb (Tx.category transaction) "pendiente")
  then transaction
  else
    let newCategory := categorizeTransaction transaction in
    Tx.with_category transaction newCategory.

Definition applyRulesToTransactions (transactions : list ParsedTransaction)
    (preserveManualCategories : bool) : list ParsedTransaction :=
  map (applyRulesTo preserveManualCategories) transactions.

(** ** Statement import ([parse-transactions.ts]) *)

(** A computation that returns a value or throws an [Error] with a
    message. *)
Inductive Result (A : Type) : Type :=
  | Return (a : A)
  | Throw (message : string).
Arguments Return {A} a.
Arguments Throw {A} message.

Definition bind {A B : Type} (r : Result A) (k : A -> Result B) : Result B :=
  match r with
  | Return a => k a
  | Throw message => Throw message
  end.

Notation "x <- e ;; k" := (bind e (fun x => k))
  (at level 100, e at next level, k at level 200, right associativity).

Definition succeeds {A : Type} (r : Result A) : bool :=
  match r with Return _ => true | Throw _ => false end.

Record CSVRow : Type := {
  valorDate : string;
  fecha : string;
  concepto : string;
  movimiento : string;
  importe : string;
  disponible : string
}.

(** The template literal [combined] of [generateId]. *)
Definition combined (valorDate fecha description movimiento : string)
    (amount : JS.number) (disponible : string) : string :=
  valorDate ++ "|" ++ fecha ++ "|" ++ description ++ "|" ++ movimiento ++ "|" ++
  JS.Number_toString (JS.Math_abs amount) ++ "|" ++ disponible.

Definition generateId (valorDate fecha description movimiento : string)
    (amount : JS.number) (disponible : string) : string :=
  let hash := SHA256.hex (combined valorDate fecha description movimiento amount disponible) in
  "tx_" ++ JS.substring0 12 hash.

(** [const [day, month, year] = dateStr.split('/')]: a missing piece is
    [undefined], which is falsy like the empty string. *)
Definition convertDate (dateStr : string) : Result string :=
  let parts := JS.split "/" dateStr in
  match parts !! 0%nat, parts !! 1%nat, parts !! 2%nat with
  | Some day, Some month, Some year =>
      if negb (JS.truthy day) || negb (JS.truthy month) || negb (JS.truthy year)
      then Throw ("Invalid date format: " ++ dateStr)
      else Return (year ++ "-" ++ JS.padStart2 month ++ "-" ++ JS.padStart2 day)
  | _, _, _ => Throw ("Invalid date format: " ++ dateStr)
  end.

Definition parseAmount (amountStr : string) : Result JS.number :=
  let normalized := JS.replace "," "." amountStr in
  let amount := JS.parseFloat normalized in
  if JS.isNaN amount then Throw ("Invalid amount format: " ++ amountStr)
  else Return amount.

(** The body of the [try] block for one row. *)
Definition buildTransaction (row : CSVRow) : Result ParsedTransaction :=
  date <- convertDate (valorDate row) ;;
  fecha <- (if JS.truthy (fecha row) then convertDate (fecha row) else Return date) ;;
  amount <- parseAmount (importe row) ;;
  let type := if JS.lt amount (JS.ofNat 0) then expense else income in
  let absoluteAmount := JS.Math_abs amount in
  let id := generateId date fecha (concepto row) (movimiento row) absoluteAmount
                       (disponible row) in
  Return (Tx.mk id date (concepto row) None absoluteAmount "pendiente" None
                "checking" type).

(** The state of the loop: the transactions pushed so far and the calls
    made to [console.error], each with its text and the error's message. *)
Record TransformState : Type := {
  transactions : list ParsedTransaction;
  errorLog : list (string * string)
}.

(** One iteration: the [try] body, and the [catch] that logs and goes on. *)
Definition transformStep (st : TransformState) (row : CSVRow) : TransformState :=
  match buildTransaction row with
  | Return transaction =>
      {| transactions := transactions st ++ [transaction];
         errorLog := errorLog st |}
  | Throw message =>
      {| transactions := transactions st;
         errorLog := errorLog st ++
           [("Error processing row: " ++ concepto row, message)] |}
  end.

Definition transformRun (csvRows : list CSVRow) : TransformState :=
  fold_left transformStep csvRows {| transactions := []; errorLog := [] |}.

Definition transformToTransactions (csvRows : list CSVRow) : list ParsedTransaction :=
  transactions (transformRun csvRows).

(** ** Merge ([mergeTransactions]) *)

Section Merge.

(** [new Date(s).getTime()]: the time value of the date a string denotes,
    or no value (NaN) when the string is not a date.  Which strings beyond
    the date-time string format are dates is left to the engine, so the
    merge is stated for any such reading; [JS.isoDateTime] is one. *)
Variable getTime : string -> option Z.

Record MergeState : Type := {
  existingIds : gset string;
  merged : list ParsedTransaction;
  addedCount : nat
}.

Definition mergeStep (st : MergeState) (transaction : ParsedTransaction) : MergeState :=
  if decide (Tx.id transaction ∈ existingIds st) then st
  else {| existingIds := {[ Tx.id transaction ]} ∪ existingIds st;
          merged := merged st ++ [transaction];
          addedCount := S (addedCount st) |}.

(** The state after the [for] loop over the new transactions. *)
Definition mergeLoop (existing newTransactions : list ParsedTransaction) : MergeState :=
  fold_left mergeStep newTransactions
    {| existingIds := list_to_set (Tx.id <$> existing);
       merged := existing;
       addedCount := 0 |}.

(** The comparator given to [sort]: [dateB - dateA] when the two times
    differ, 0 otherwise; NaN is different from everything, itself
    included, and any difference with it is NaN. *)
Definition compareByDate (a b : ParsedTransaction) : option Z :=
  match getTime (Tx.date a), getTime (Tx.date b) with
  | Some dateA, Some dateB =>
      if negb (dateB =? dateA)%Z then Some (dateB - dateA)%Z else Some 0%Z
  | _, _ => None
  end.

Definition mergeTransactions (existing newTransactions : list ParsedTransaction)
  : list ParsedTransaction :=
  JS.sort compareByDate (merged (mergeLoop existing newTransactions)).

End Merge.

(** ** Statement files ([parseCSV]) *)

(** [columns[i]?.trim()]: nothing when the line has no such column. *)
Definition trimmedColumn (columns : list string) (i : nat) : option string :=
  JS.trim <$> columns !! i.

(** [x || ''] for a string or [undefined]. *)
Definition orEmpty (x : option string) : string :=
  match x with
  | Some s => if JS.truthy s then s else ""
  | None => ""
  end.

(** The body of the loop over the data lines: the row pushed for the line,
    or nothing when the line is passed over with [continue]. *)
Definition extractRow (line : string) : option CSVRow :=
  if negb (JS.truthy (JS.trim line)) then None
  else
    let columns := JS.split ";" line in
    if (length columns <? 6)%nat then None
    else
      let valorDate := trimmedColumn columns 1 in
      let fecha := orEmpty (trimmedColumn columns 2) in
      let concepto := trimmedColumn columns 3 in
      let movimiento := orEmpty (trimmedColumn columns 4) in
      let importe := trimmedColumn columns 5 in
      let disponible := orEmpty (trimmedColumn columns 7) in
      match valorDate, concepto, importe with
      | Some valorDate, Some concepto, Some importe =>
          if negb (JS.truthy valorDate) || negb (JS.truthy concepto)
             || negb (JS.truthy importe) then None
          else if String.eqb importe "" then None
          else Some {| valorDate := valorDate; fecha := fecha; concepto := concepto;
                       movimiento := movimiento; importe := importe;
                       disponible := disponible |}
      | _, _, _ => None
      end.

Definition parseCSVStep (transactions : list CSVRow) (line : string) : list CSVRow :=
  match extractRow line with
  | Some row => transactions ++ [row]
  | None => transactions
  end.

(** [parseCSV], as a function of the content read from the file. *)
Definition parseCSV (content : string) : list CSVRow :=
  let lines := JS.split "010" content in
  let dataLines := drop 5 lines in
  fold_left parseCSVStep dataLines [].

(** ** Persisting ([generateJSON]) *)

(** The callback of [transactions.map(...)] in [generateJSON]: the plain
    object of a transaction, with an override field only when the override
    is defined and not blank. *)
Definition plainObject (t : ParsedTransaction) : ParsedTransaction :=
  Tx.mk (Tx.id t) (Tx.date t) (Tx.description t)
        (if hasOverride (Tx.descriptionOverride t) then Tx.descriptionOverride t else None)
        (Tx.amount t) (Tx.category t)
        (if hasOverride (Tx.categoryOverride t) then Tx.categoryOverride t else None)
        (Tx.account t) (Tx.type t).

(** The array [jsonData] that [generateJSON] hands to [JSON.stringify]. *)
Definition jsonData (transactions : list ParsedTransaction) : list ParsedTransaction :=
  map plainObject transactions.

(** ** The import run ([main] of [parse-transactions.ts]) *)

(** The state of the loop over the files: the ids seen and the
    transactions collected so far. *)
Record BatchState : Type := {
  seenIds : gset string;
  allCSVTransactions : list ParsedTransaction
}.

Definition collectStep (st : BatchState) (transaction : ParsedTransaction) : BatchState :=
  if decide (Tx.id transaction ∈ seenIds st) then st
  else {| seenIds := {[ Tx.id transaction ]} ∪ seenIds st;
          allCSVTransactions := allCSVTransactions st ++ [transaction] |}.

(** One file: its rows are extracted and built, and the transactions whose
    id has not been seen are collected. *)
Definition collectFile (st : BatchState) (content : string) : BatchState :=
  let csvRows := parseCSV content in
  let transactions := transformToTransactions csvRows in
  fold_left collectStep transactions st.

Record ImportResult : Type := {
  categorizedTransactions : list ParsedTransaction;
  categorizedCount : nat;
  pendienteCount : nat;
  duplicateIds : nat
}.

Section ImportRun.

Variable getTime : string -> option Z.

(** What [main] computes from the existing transactions and the contents
    of the statement files, in the order of their paths: nothing, and no
    file written, when there is no statement file; otherwise the
    transactions handed to [generateJSON], the two counts it prints, and by
    how much the number of transactions exceeds the number of different
    ids. *)
Definition importTransactions (existingTransactions : list ParsedTransaction)
    (csvFiles : list string) : option ImportResult :=
  match csvFiles with
  | [] => None
  | _ =>
      let batch := fold_left collectFile csvFiles
                     {| seenIds := ∅; allCSVTransactions := [] |} in
      let categorizedNewTransactions :=
        applyRulesToTransactions (allCSVTransactions batch) false in
      let allTransactions :=
        mergeTransactions getTime existingTransactions categorizedNewTransactions in
      let categorizedTransactions := applyRulesToTransactions allTransactions false in
      let ids : gset string := list_to_set (Tx.id <$> categorizedTransactions) in
      Some {| categorizedTransactions := categorizedTransactions;
              categorizedCount :=
                length (filter (fun t => Tx.category t <> "other" /\
                                         Tx.category t <> "pendiente")
                               categorizedTransactions);
              pendienteCount :=
                length (filter (fun t => Tx.category t = "pendiente")
                               categorizedTransactions);
              duplicateIds := length categorizedTransactions - size ids |}
  end.

End ImportRun.

(** ** The category check ([check-invalid-categories.ts]) *)

(** [transaction.categoryOverride || transaction.category] *)
Definition getEffectiveCategory (transaction : ParsedTransaction) : string :=
  match Tx.categoryOverride transaction with
  | Some override => if JS.truthy override then override else Tx.category transaction
  | None => Tx.category transaction
  end.

Inductive InvalidField : Type := field_category | field_categoryOverride.

Record InvalidEntry : Type := {
  transaction : ParsedTransaction;
  invalidCategory : string;
  field : InvalidField
}.

(** The callback of [transactions.forEach(...)]: the entries pushed for one
    transaction. *)
Definition checkTransaction (validCategoryIds : list string) (t : ParsedTransaction)
  : list InvalidEntry :=
  ((if bool_decide (Tx.category t ∈ validCategoryIds) then []
    else [ {| transaction := t; invalidCategory := Tx.category t;
              field := field_category |} ]) ++
  match Tx.categoryOverride t with
  | Some override =>
      if hasOverride (Tx.categoryOverride t)
         && negb (bool_decide (override ∈ validCategoryIds))
      then [ {| transaction := t; invalidCategory := override;
                field := field_categoryOverride |} ]
      else []
  | None => []
  end)%list.

Definition invalidTransactions (validCategoryIds : list string)
    (transactions : list ParsedTransaction) : list InvalidEntry :=
  fold_left (fun entries t => (entries ++ checkTransaction validCategoryIds t)%list)
            transactions [].

(** The [id]s of [CATEGORIES] ([src/config/categories.ts]), in its order. *)
Definition categoryIds : list string :=
  [ "salary"; "rent"; "groceries"; "dining"; "transport"; "utilities";
    "entertainment"; "health"; "travel"; "shopping"; "education"; "pets";
    "subscriptions"; "savings"; "other"; "pendiente" ].

(** ** The pending check ([check-pending.ts]) *)

Module CheckPending.

(** [descriptionOverride || description] *)
Definition getEffectiveDescription (transaction : ParsedTransaction) : string :=
  match Tx.descriptionOverride transaction with
  | Some override => if JS.truthy override then override else Tx.description transaction
  | None => Tx.description transaction
  end.

(** The callback of the first [filter]: the category is ['pendiente'] and
    there is no override, or a blank one. *)
Definition isPending (t : ParsedTransaction) : bool :=
  String.eqb (Tx.category t) "pendiente" &&
  match Tx.categoryOverride t with
  | None => true
  | Some override => negb (JS.truthy override) || negb (JS.truthy (JS.trim override))
  end.

(** What [main] prints: the counts, and the pending transactions it
    lists. *)
Record Report : Type := {
  total : nat;
  pendingCount : nat;
  overrideCount : nat;
  categorizedCount : Z;
  sortedPending : list ParsedTransaction
}.

Section Report.

Variable getTime : string -> option Z.

(** The comparator of the sort: the difference of the two times, NaN when
    one of them is. *)
Definition compareRecent (a b : ParsedTransaction) : option Z :=
  match getTime (Tx.date b), getTime (Tx.date a) with
  | Some dateB, Some dateA => Some (dateB - dateA)%Z
  | _, _ => None
  end.

Definition report (transactions : list ParsedTransaction) : Report :=
  let total := length transactions in
  let pendingTransactions := List.filter isPending transactions in
  let overrideCount :=
    length (List.filter (fun t => hasOverride (Tx.categoryOverride t)) transactions) in
  let sortedPending := take 20 (JS.sort compareRecent pendingTransactions) in
  let pendingCount := length pendingTransactions in
  let categorizedCount :=
    (Z.of_nat total - Z.of_nat pendingCount - Z.of_nat overrideCount)%Z in
  {| total := total; pendingCount := pendingCount; overrideCount := overrideCount;
     categorizedCount := categorizedCount; sortedPending := sortedPending |}.

End Report.

End CheckPending.

(** * Vocabulary of the properties *)

(** The override is present and not blank. *)
Definition nonBlank (o : option string) : Prop :=
  exists s, o = Some s /\ JS.trim s <> "".

(** The two records agree on every field but [category]. *)
Definition sameButCategory (t t' : ParsedTransaction) : Prop :=
  Tx.id t' = Tx.id t /\ Tx.date t' = Tx.date t /\
  Tx.description t' = Tx.description t /\
  Tx.descriptionOverride t' = Tx.descriptionOverride t /\
  Tx.amount t' = Tx.amount t /\
  Tx.categoryOverride t' = Tx.categoryOverride t /\
  Tx.account t' = Tx.account t /\ Tx.type t' = Tx.type t.

(** The double nearest to 1.2. *)
Definition onePointTwo : JS.number := S754_finite false 5404319552844595 (-52).

(** The row is turned into a transaction, or not. *)
Definition built (row : CSVRow) : option ParsedTransaction :=
  match buildTransaction row with
  | Return transaction => Some transaction
  | Throw _ => None
  end.

(** Both dates of the row convert (an empty secondary date needs no
    conversion) and its amount parses. *)
Definition wellFormed (row : CSVRow) : bool :=
  succeeds (convertDate (valorDate row)) &&
  (negb (JS.truthy (fecha row)) || succeeds (convertDate (fecha row))) &&
  succeeds (parseAmount (importe row)).

(** The number is zero, of either sign. *)
Definition isZero (x : JS.number) : Prop := exists s, x = S754_zero s.

(** The string holds no delimiter ['|']. *)
Fixpoint barFree (s : string) : bool :=
  match s with
  | EmptyString => true
  | String c s' => negb (Ascii.eqb c "|") && barFree s'
  end.

(** The ids of the records of a list, as a set. *)
Definition idsOf (l : list ParsedTransaction) : gset string :=
  list_to_set (Tx.id <$> l).

(** The records of [l] that the loop appends when it starts with the ids
    [seen]: those whose id is not in [seen] and has not come up before. *)
Fixpoint newRecords (seen : gset string) (l : list ParsedTransaction)
  : list ParsedTransaction :=
  match l with
  | [] => []
  | t :: l' =>
      if decide (Tx.id t ∈ seen) then newRecords seen l'
      else t :: newRecords ({[ Tx.id t ]} ∪ seen) l'
  end.

(** The string holds no occurrence of the code unit [c]. *)
Fixpoint lacks (c : ascii) (s : string) : bool :=
  match s with
  | EmptyString => true
  | String d s' => negb (Ascii.eqb d c) && lacks c s'
  end.

(** The line feed and the carriage return. *)
Definition LF : ascii := "010".
Definition CR : ascii := "013".

(** The text whose lines are [lines], each closed by [eol] and a line feed,
    followed by [rest]. *)
Definition withLines (eol : string) (lines : list string) (rest : string) : string :=
  fold_right (fun line text => line ++ eol ++ String LF text) rest lines.

(** Every field of the row is as [trim] leaves it. *)
Definition trimmedRow (row : CSVRow) : Prop :=
  JS.trim (valorDate row) = valorDate row /\ JS.trim (fecha row) = fecha row /\
  JS.trim (concepto row) = concepto row /\ JS.trim (movimiento row) = movimiento row /\
  JS.trim (importe row) = importe row /\ JS.trim (disponible row) = disponible row.

(** No field of the row holds the code unit [c]. *)
Definition rowLacks (c : ascii) (row : CSVRow) : Prop :=
  lacks c (valorDate row) = true /\ lacks c (fecha row) = true /\
  lacks c (concepto row) = true /\ lacks c (movimiento row) = true /\
  lacks c (importe row) = true /\ lacks c (disponible row) = true.




(** The number is no NaN and has no minus sign. *)
Definition nonNegative (x : JS.number) : Prop :=
  match x with
  | S754_zero s | S754_infinity s | S754_finite s _ _ => s = false
  | S754_nan => False
  end.

(** The row with a minus sign put in front of its amount. *)
Definition negated (row : CSVRow) : CSVRow :=
  {| valorDate := valorDate row; fecha := fecha row; concepto := concepto row;
     movimiento := movimiento row; importe := String "-" (importe row);
     disponible := disponible row |}.

(** The transactions built from the statement files, file after file. *)
Definition builtFrom (csvFiles : list string) : list ParsedTransaction :=
  concat (map (fun content => transformToTransactions (parseCSV content)) csvFiles).

(** The function changes neither the id nor the date of a record. *)
Definition keepsIdAndDate (g : ParsedTransaction -> ParsedTransaction) : Prop :=
  forall t, Tx.id (g t) = Tx.id t /\ Tx.date (g t) = Tx.date t.

Section Dates.

Variable getTime : string -> option Z.

(** The time value of the record's date. *)
Definition timeOf (t : ParsedTransaction) : option Z := getTime (Tx.date t).

(** The record's date is a date: its time value is a number. *)
Definition validDate (t : ParsedTransaction) : Prop := is_Some (timeOf t).

(** Both dates are valid and [a]'s is the same as [b]'s or later. *)
Definition notOlder (a b : ParsedTransaction) : Prop :=
  exists ta tb, timeOf a = Some ta /\ timeOf b = Some tb /\ (tb <= ta)%Z.

End Dates.

(** * Sample rows and records *)

Definition overridden : ParsedTransaction :=
  Tx.mk "tx_1" "2024-03-15" "SUPERMART MADRID" None (JS.ofNat 45) "dining"
        (Some " gifts ") "checking" expense.

Definition rentAtTheMarket : ParsedTransaction :=
  Tx.mk "tx_2" "2024-04-01" "Rent paid at the MARKET office" None (JS.ofNat 900)
        "pendiente" None "checking" expense.

(** An expense whose description holds a keyword of the Salary rule and a
    keyword of the Rent rule. *)
Definition salaryRentExpense : ParsedTransaction :=
  Tx.mk "tx_3" "2024-04-02" "salary advance repaid, rent" None (JS.ofNat 50)
        "pendiente" None "checking" expense.

Definition zeroAmountRow : CSVRow :=
  {| valorDate := "15/03/2024"; fecha := ""; concepto := "AJUSTE";
     movimiento := ""; importe := "-0,00"; disponible := "1234,56" |}.

Definition record (id date description : string) (type : TransactionType)
  : ParsedTransaction :=
  Tx.mk id date description None (JS.ofNat 10) "pendiente" None "checking" type.

Definition coffee : ParsedTransaction := record "tx_aaaaaaaaaaaa" "2024-01-01" "CAFE SOL" expense.

Definition metro : ParsedTransaction := record "tx_bbbbbbbbbbbb" "2024-01-02" "METRO" expense.

Definition cinema : ParsedTransaction := record "tx_cccccccccccc" "2024-01-02" "CINEMA" expense.

Definition payroll : ParsedTransaction := record "tx_dddddddddddd" "2024-01-03" "PAYROLL" income.

Definition undated : ParsedTransaction := record "tx_eeeeeeeeeeee" "" "AJUSTE" expense.

(** Two rows that differ in the sign of the amount only, and the records
    built from them: [generateId] hashes the absolute amount, so the two
    records have one id and differ in their type. *)
Definition chargeRow : CSVRow :=
  {| valorDate := "04/01/2024"; fecha := ""; concepto := "STORE";
     movimiento := ""; importe := "-10,00"; disponible := "" |}.

Definition refundRow : CSVRow :=
  {| valorDate := "04/01/2024"; fecha := ""; concepto := "STORE";
     movimiento := ""; importe := "10,00"; disponible := "" |}.

Definition charge : ParsedTransaction := record "tx_b348a1c33afb" "2024-01-04" "STORE" expense.

Definition refund : ParsedTransaction := record "tx_b348a1c33afb" "2024-01-04" "STORE" income.

(** A statement file: five lines of preamble, two movements with CR LF
    line ends, a blank line and a line that is too short. *)
Definition statementHeader : list string :=
  ["Cuenta: ES00 0000"; "Titular;X"; ""; "Periodo;01/03/2024;31/03/2024";
   ";F.Valor;Fecha;Concepto;Movimiento;Importe;Divisa;Disponible"].

Definition statementLines : list string :=
  ["01;15/03/2024;15/03/2024;SUPERMART MADRID;COMPRA TARJETA;-45,30;;1234,56";
   "   ";
   "02; 16/03/2024 ;;CAFE SOL;; -2,2 ";
   "03;17/03/2024"].

Definition statement : string :=
  withLines (String CR "") statementHeader (withLines (String CR "") statementLines "").

Definition supermartRow : CSVRow :=
  {| valorDate := "15/03/2024"; fecha := "15/03/2024"; concepto := "SUPERMART MADRID";
     movimiento := "COMPRA TARJETA"; importe := "-45,30"; disponible := "1234,56" |}.

(** A record with the description of [rentAtTheMarket] in other letter
    case, and other id, date, amount and category. *)
Definition metroRent : ParsedTransaction :=
  Tx.mk "tx_9" "2023-12-31" "RENT PAID at the market OFFICE" None (JS.ofNat 1)
        "savings" None "checking" expense.

(** The run of the import on the store [[overridden]] and the one file
    [statement]. *)
Definition firstImport : ImportResult :=
  default {| categorizedTransactions := []; categorizedCount := 0;
             pendienteCount := 0; duplicateIds := 0 |}
          (importTransactions JS.isoDateTime [overridden] [statement]).

(** The entry of the category check for the override of [overridden]. *)
Definition giftsEntry : InvalidEntry :=
  {| transaction := overridden; invalidCategory := " gifts ";
     field := field_categoryOverride |}.

(** * Properties *)

(** ** Strings *)

Lemma append_cons (c : ascii) (s t : string) : String c s ++ t = String c (s ++ t).
Proof. reflexivity. Qed.

Lemma append_nil (t : string) : "" ++ t = t.
Proof. reflexivity. Qed.

Lemma prefix_app (p s : string) :
  String.prefix p s = true <-> exists post, s = p ++ post.
Proof.
  revert s; induction p as [|c p IH]; intros s.
  - split; [intros _; exists s; reflexivity | intros _; destruct s; reflexivity].
  - destruct s as [|d s]; simpl.
    + split; [discriminate | intros [post H]; discriminate].
    + destruct (Ascii.ascii_dec c d) as [->|Hne].
      * rewrite IH. split; intros [post H]; exists post;
          rewrite append_cons in *; congruence.
      * split; [discriminate | intros [post H]; rewrite append_cons in H; congruence].
Qed.

Lemma includes_cons (c : ascii) (s pat : string) :
  JS.includes (String c s) pat = String.prefix pat (String c s) || JS.includes s pat.
Proof. reflexivity. Qed.

Lemma includes_app (s pat : string) :
  JS.includes s pat = true <-> exists pre post, s = pre ++ pat ++ post.
Proof.
  induction s as [|c s IH];
    [change (JS.includes "" pat) with (String.prefix pat "" || false)
    | rewrite includes_cons]; rewrite orb_true_iff, prefix_app.
  - split.
    + intros [[post H]|H]; [|discriminate]. exists "", post. exact H.
    + intros (pre & post & H). left.
      destruct pre; [eauto | rewrite append_cons in H; discriminate].
  - rewrite IH. split.
    + intros [[post H]|(pre & post & H)].
      * exists "", post. exact H.
      * exists (String c pre), post. rewrite append_cons. congruence.
    + intros (pre & post & H). destruct pre as [|d pre].
      * left. eauto.
      * right. exists pre, post. rewrite append_cons in H. congruence.
Qed.

Lemma trim_empty : JS.trim "" = "".
Proof. reflexivity. Qed.

(** ** Categorization engine *)

Lemma hasOverride_nonBlank (o : option string) :
  hasOverride o = true <-> nonBlank o.
Proof.
  unfold nonBlank. destruct o as [s|]; simpl.
  - rewrite andb_true_iff. split.
    + intros [_ H]. exists s. split; [reflexivity|].
      destruct (JS.trim s); [discriminate | discriminate].
    + intros (s' & [= <-] & H). split.
      * destruct s; [exfalso; apply H; reflexivity | reflexivity].
      * destruct (JS.trim s); [contradiction | reflexivity].
  - split; [discriminate | intros (s & H & _); discriminate].
Qed.

Lemma applyRulesTo_override (preserveManual : bool) (t : ParsedTransaction) :
  nonBlank (Tx.categoryOverride t) -> applyRulesTo preserveManual t = t.
Proof.
  intros H. apply hasOverride_nonBlank in H. unfold applyRulesTo. rewrite H. reflexivity.
Qed.

(** C1. Whatever the list and the flag, a transaction whose
    [categoryOverride] is present and non-blank (not empty once trimmed)
    comes back from [applyRulesToTransactions] unchanged, at the same
    position; in particular its [category] is the one it had. *)
Theorem override_sanctity (transactions : list ParsedTransaction)
    (preserveManualCategories : bool) (i : nat) (t : ParsedTransaction) :
  transactions !! i = Some t ->
  nonBlank (Tx.categoryOverride t) ->
  applyRulesToTransactions transactions preserveManualCategories !! i = Some t /\
  Tx.category <$> applyRulesToTransactions transactions preserveManualCategories !! i
    = Some (Tx.category t).
Proof.
  intros Hi Ho. unfold applyRulesToTransactions.
  assert (map (applyRulesTo preserveManualCategories) transactions !! i = Some t) as E.
  { change (map (applyRulesTo preserveManualCategories) transactions)
      with (applyRulesTo preserveManualCategories <$> transactions).
    rewrite list_lookup_fmap, Hi. simpl. f_equal. apply applyRulesTo_override, Ho. }
  rewrite E. split; reflexivity.
Qed.

(** Any sequence of runs, each in its own mode, leaves such a transaction
    as it was. *)
Lemma override_sanctity_runs (modes : list bool) (transactions : list ParsedTransaction)
    (i : nat) (t : ParsedTransaction) :
  transactions !! i = Some t ->
  nonBlank (Tx.categoryOverride t) ->
  fold_left applyRulesToTransactions modes transactions !! i = Some t.
Proof.
  revert transactions. induction modes as [|m modes IH]; intros l Hi Ho; simpl.
  - exact Hi.
  - apply IH; [|exact Ho]. unfold applyRulesToTransactions.
    change (map (applyRulesTo m) l) with (applyRulesTo m <$> l).
    rewrite list_lookup_fmap, Hi. simpl. f_equal. apply applyRulesTo_override, Ho.
Qed.

Lemma override_sanctity_witness :
  applyRulesToTransactions [overridden] false !! 0%nat = Some overridden /\
  Tx.category <$> applyRulesToTransactions [overridden] false !! 0%nat = Some "dining".
Proof.
  apply (override_sanctity [overridden] false 0 overridden).
  - reflexivity.
  - exists " gifts ". split; [reflexivity | vm_compute; discriminate].
Defined.

Lemma applyRulesTo_frame (preserveManual : bool) (t : ParsedTransaction) :
  sameButCategory t (applyRulesTo preserveManual t).
Proof.
  unfold applyRulesTo, sameButCategory.
  destruct (hasOverride _); [tauto|].
  destruct (_ && _); [tauto|]. simpl. tauto.
Qed.

(** C8. [applyRulesToTransactions] keeps the length and the order of the
    list: the result pairs off with the input position by position, and the
    record at each position has the same id, date, description,
    descriptionOverride, amount, categoryOverride, account and type as the
    input record there. *)
Theorem applyRules_frame (transactions : list ParsedTransaction)
    (preserveManualCategories : bool) :
  length (applyRulesToTransactions transactions preserveManualCategories)
    = length transactions /\
  Forall2 sameButCategory transactions
    (applyRulesToTransactions transactions preserveManualCategories).
Proof.
  unfold applyRulesToTransactions. split; [apply length_map|].
  induction transactions as [|t l IH]; simpl; constructor.
  - apply applyRulesTo_frame.
  - exact IH.
Qed.

(** [containsAny] is a case-insensitive substring test: some keyword, in
    lower case, occurs in the lower-cased description. *)
Lemma containsAny_spec (description : string) (keywords : list string) :
  containsAny description keywords = true <->
  exists keyword, keyword ∈ keywords /\
    exists pre post,
      JS.toLowerCase description = pre ++ JS.toLowerCase keyword ++ post.
Proof.
  unfold containsAny. rewrite existsb_exists. split.
  - intros (k & Hin & H). exists k. split; [apply list_elem_of_In, Hin|].
    apply includes_app, H.
  - intros (k & Hin & H). exists k. split; [apply list_elem_of_In, Hin|].
    apply includes_app, H.
Qed.

(** What the loop returns: the category of the first rule that matches, or
    the sentinel when none does. *)
Lemma categorizeWith_first (rules : list CategorizationRule) (t : ParsedTransaction) :
  (exists k r, rules !! k = Some r /\ match_ r t = true /\
     (forall k' r', (k' < k)%nat -> rules !! k' = Some r' -> match_ r' t = false) /\
     categorizeWith rules t = category r) \/
  ((forall r, r ∈ rules -> match_ r t = false) /\ categorizeWith rules t = "pendiente").
Proof.
  induction rules as [|rule rest IH]; simpl.
  - right. split; [intros r Hr; inversion Hr | reflexivity].
  - destruct (match_ rule t) eqn:Hm.
    + left. exists 0%nat, rule. repeat split; [exact Hm | intros; lia].
    + destruct IH as [(k & r & Hk & Hr & Hbefore & Hc)|[Hnone Hc]].
      * left. exists (S k), r. repeat split; [exact Hk | exact Hr | | exact Hc].
        intros [|k'] r' Hlt Hk'; simpl in Hk'.
        -- congruence.
        -- apply (Hbefore k'); [lia | exact Hk'].
      * right. split; [|exact Hc].
        intros r Hr. apply elem_of_cons in Hr as [->|Hr]; [exact Hm | apply Hnone, Hr].
Qed.

Lemma rule_categories_distinct : NoDup (category <$> getCategorizationRules).
Proof. apply (bool_decide_unpack _). vm_compute. exact I. Qed.

Lemma rule_categories_not_pending :
  Forall (fun r => category r <> "pendiente") getCategorizationRules.
Proof. repeat constructor; discriminate. Qed.

(** The first matching position decides the result. *)
Lemma categorizeWith_at (rules : list CategorizationRule) (t : ParsedTransaction)
    (k : nat) (r : CategorizationRule) :
  rules !! k = Some r -> match_ r t = true ->
  (forall k' r', (k' < k)%nat -> rules !! k' = Some r' -> match_ r' t = false) ->
  categorizeWith rules t = category r.
Proof.
  intros Hk Hr Hbefore.
  destruct (categorizeWith_first rules t) as [(k0 & r0 & Hk0 & Hr0 & Hb0 & Hc)|[Hnone _]].
  - destruct (Nat.lt_trichotomy k0 k) as [Hlt|[->|Hgt]].
    + rewrite (Hbefore k0 r0 Hlt Hk0) in Hr0. discriminate.
    + congruence.
    + rewrite (Hb0 k r Hgt Hk) in Hr. discriminate.
  - rewrite (Hnone r) in Hr; [discriminate|]. eapply list_elem_of_lookup_2, Hk.
Qed.

(** Once a rule matches, no rule behind it gives its category, provided the
    categories of the rules are pairwise different. *)
Lemma categorizeWith_not_later (rules : list CategorizationRule) (t : ParsedTransaction)
    (i j : nat) (ri rj : CategorizationRule) :
  NoDup (category <$> rules) ->
  (i < j)%nat -> rules !! i = Some ri -> rules !! j = Some rj ->
  match_ ri t = true ->
  categorizeWith rules t <> category rj.
Proof.
  intros Hnd Hlt Hi Hj Hri.
  destruct (categorizeWith_first rules t) as [(k0 & r0 & Hk0 & Hr0 & Hb0 & Hc)|[Hnone _]].
  - rewrite Hc. intros Heq.
    assert (k0 <= i)%nat as Hle.
    { destruct (Nat.le_gt_cases k0 i) as [H|H]; [exact H|].
      rewrite (Hb0 i ri H Hi) in Hri. discriminate. }
    assert (k0 = j); [|lia].
    apply (NoDup_lookup (category <$> rules) k0 j (category rj));
      [exact Hnd | rewrite list_lookup_fmap, Hk0; simpl; congruence
      | rewrite list_lookup_fmap, Hj; reflexivity].
  - rewrite (Hnone ri) in Hri; [discriminate|]. eapply list_elem_of_lookup_2, Hi.
Qed.

(** C2 (as the code has it). For every transaction,
    [categorizeTransaction] returns the category of the first rule of the
    fixed list whose predicate matches it, and ['pendiente'] when no
    predicate matches.  When the predicates of two rules match, the category
    of the later one is never the result.  The predicate of the Salary rule,
    the first of the list, holds only for income: keywords of that rule in
    the description of an expense do not make it match.  The keyword test
    of the predicates holds exactly when some keyword, lower-cased, is a
    substring of the lower-cased description. *)
Theorem first_match_semantics (t : ParsedTransaction) :
  (forall k r,
      getCategorizationRules !! k = Some r -> match_ r t = true ->
      (forall k' r', (k' < k)%nat -> getCategorizationRules !! k' = Some r' ->
                     match_ r' t = false) ->
      categorizeTransaction t = category r) /\
  ((forall r, r ∈ getCategorizationRules -> match_ r t = false) ->
   categorizeTransaction t = "pendiente") /\
  (forall i j ri rj,
      (i < j)%nat ->
      getCategorizationRules !! i = Some ri -> getCategorizationRules !! j = Some rj ->
      match_ ri t = true -> match_ rj t = true ->
      categorizeTransaction t <> category rj) /\
  (forall r,
      getCategorizationRules !! 0%nat = Some r ->
      name r = "Salary" /\
      match_ r t =
        TransactionType_eqb (Tx.type t) income &&
        containsAny (Tx.description t)
          ["payroll"; "salary"; "paycheck"; "direct deposit"]) /\
  (forall keywords,
      containsAny (Tx.description t) keywords = true <->
      exists keyword, keyword ∈ keywords /\
        exists pre post,
          JS.toLowerCase (Tx.description t) = pre ++ JS.toLowerCase keyword ++ post).
Proof.
  unfold categorizeTransaction. split; [|split; [|split; [|split]]].
  - intros k r. apply categorizeWith_at.
  - intros Hnone.
    destruct (categorizeWith_first getCategorizationRules t)
      as [(k0 & r0 & Hk0 & Hr0 & _)|[_ Hc]]; [|exact Hc].
    rewrite (Hnone r0) in Hr0; [discriminate|]. eapply list_elem_of_lookup_2, Hk0.
  - intros i j ri rj Hlt Hi Hj Hri _.
    eapply categorizeWith_not_later; eauto using rule_categories_distinct.
  - intros r [= <-]. split; reflexivity.
  - intros keywords. apply containsAny_spec.
Qed.

Lemma first_match_semantics_witness :
  categorizeTransaction rentAtTheMarket = "rent" /\
  categorizeTransaction rentAtTheMarket <> "groceries".
Proof.
  destruct (first_match_semantics rentAtTheMarket) as (Hfirst & _ & Hlater & _ & _).
  split.
  - apply (Hfirst 1%nat (Build_CategorizationRule "Rent" "rent"
             (fun t => containsAny (Tx.description t) ["rent"; "lease"]))).
    + reflexivity.
    + reflexivity.
    + intros [|k'] r' Hlt Hk'; [|lia]. injection Hk' as <-. reflexivity.
  - apply (Hlater 1%nat 2%nat
             (Build_CategorizationRule "Rent" "rent"
                (fun t => containsAny (Tx.description t) ["rent"; "lease"]))
             (Build_CategorizationRule "Groceries" "groceries"
                (fun t => containsAny (Tx.description t)
                            ["grocery"; "market"; "supermart"; "fresh mart"]))).
    + lia.
    + reflexivity.
    + reflexivity.
    + reflexivity.
    + reflexivity.
Defined.

(** C2, counterexample to the clause on descriptions that contain keywords
    of two rules: the description of [salaryRentExpense] contains the
    keyword "salary" of the Salary rule and the keyword "rent" of the Rent
    rule, Salary precedes Rent in the list, and the category assigned is
    that of Rent, the later rule. *)
Lemma keywords_of_two_rules_counterexample :
  containsAny (Tx.description salaryRentExpense)
    ["payroll"; "salary"; "paycheck"; "direct deposit"] = true /\
  containsAny (Tx.description salaryRentExpense) ["rent"; "lease"] = true /\
  category <$> getCategorizationRules !! 0%nat = Some "salary" /\
  category <$> getCategorizationRules !! 1%nat = Some "rent" /\
  categorizeTransaction salaryRentExpense = "rent" /\
  categorizeTransaction salaryRentExpense <> "salary".
Proof. vm_compute. repeat split; discriminate. Qed.

(** ** Locale parsers and the transaction builder *)

Lemma replace_first_only (from to : ascii) (s1 s2 : string) :
  (forall pre post, s1 <> pre ++ String from post) ->
  JS.replace from to (s1 ++ String from s2) = s1 ++ String to s2.
Proof.
  induction s1 as [|c s1 IH]; intros Hfree.
  - rewrite !append_nil. simpl. rewrite Ascii.eqb_refl. reflexivity.
  - rewrite !append_cons. simpl. destruct (Ascii.eqb c from) eqn:E.
    + apply Ascii.eqb_eq in E as ->. exfalso. apply (Hfree "" s1). reflexivity.
    + f_equal. apply IH. intros pre post ->. apply (Hfree (String c pre) post).
      reflexivity.
Qed.

(** C9. [parseAmount] turns only the first comma of its input into a
    period: whatever follows that comma, later commas included, is left as
    it is.  On ['1,2,3'], which has two commas, the string parsed is
    ['1.2,3']; [parseAmount] returns without throwing, and the number it
    returns is 1.2, the value read up to the second comma, which is also
    what ['1.2'] parses to. *)
Theorem parseAmount_first_comma_only :
  (forall s1 s2 : string,
      (forall pre post, s1 <> pre ++ String "," post) ->
      JS.replace "," "." (s1 ++ String "," s2) = s1 ++ String "." s2) /\
  JS.replace "," "." "1,2,3" = "1.2,3" /\
  parseAmount "1,2,3" = Return onePointTwo /\
  parseAmount "1.2" = Return onePointTwo /\
  JS.Number_toString onePointTwo = "1.2".
Proof.
  split; [intros s1 s2; apply replace_first_only|].
  repeat split; vm_compute; reflexivity.
Qed.

Lemma omap_built_cons (row : CSVRow) (rows : list CSVRow) :
  omap built (row :: rows)
  = match built row with
    | Some transaction => transaction :: omap built rows
    | None => omap built rows
    end.
Proof. reflexivity. Qed.

Lemma transformStep_fold (rows : list CSVRow) (st : TransformState) :
  transactions (fold_left transformStep rows st)
    = (transactions st ++ omap built rows)%list /\
  length (errorLog (fold_left transformStep rows st))
    = (length (errorLog st) + length (filter (fun row => wellFormed row = false) rows))%nat.
Proof.
  assert (forall row, succeeds (buildTransaction row) = wellFormed row) as Hwf.
  { intros row. unfold buildTransaction, wellFormed.
    destruct (convertDate (valorDate row)) as [date|]; simpl; [|reflexivity].
    destruct (JS.truthy (fecha row)); simpl.
    - destruct (convertDate (fecha row)); simpl; [|reflexivity].
      destruct (parseAmount (importe row)); reflexivity.
    - destruct (parseAmount (importe row)); reflexivity. }
  revert st. induction rows as [|row rows IH]; intros st; simpl.
  - rewrite app_nil_r. split; [reflexivity | simpl; lia].
  - destruct (IH (transformStep st row)) as [IHt IHe]. rewrite IHt, IHe.
    rewrite filter_cons. specialize (Hwf row).
    unfold transformStep, built. destruct (buildTransaction row) as [t|msg]; simpl in *.
    + rewrite <- Hwf. rewrite decide_False by discriminate.
      rewrite <- app_assoc. split; [reflexivity | lia].
    + rewrite <- Hwf. rewrite decide_True by reflexivity.
      rewrite length_app. simpl. split; [reflexivity | lia].
Qed.

(** C7. [transformToTransactions] always returns a list.  A row is turned
    into a transaction exactly when its value date converts, its secondary
    date is empty or converts, and its amount parses; every other row is
    skipped, with one line on the error log.  The output is the list of the
    transactions built from the rows that are not skipped, in the order of
    the rows. *)
Theorem transform_partial_failure (csvRows : list CSVRow) :
  transformToTransactions csvRows = omap built csvRows /\
  (forall row, is_Some (built row) <-> wellFormed row = true) /\
  (forall row,
      wellFormed row = false <->
      (exists message, convertDate (valorDate row) = Throw message) \/
      (fecha row <> "" /\ exists message, convertDate (fecha row) = Throw message) \/
      (exists message, parseAmount (importe row) = Throw message)) /\
  omap built csvRows = omap built (filter (fun row => wellFormed row = true) csvRows) /\
  length (transformToTransactions csvRows)
    = length (filter (fun row => wellFormed row = true) csvRows) /\
  length (errorLog (transformRun csvRows))
    = length (filter (fun row => wellFormed row = false) csvRows).
Proof.
  assert (forall row, is_Some (built row) <-> wellFormed row = true) as Hb.
  { intros row. unfold built, buildTransaction, wellFormed.
    destruct (convertDate (valorDate row)) as [date|]; simpl;
      [|split; [intros [? [=]] | discriminate]].
    destruct (JS.truthy (fecha row)); simpl.
    - destruct (convertDate (fecha row)); simpl;
        [|split; [intros [? [=]] | discriminate]].
      destruct (parseAmount (importe row)); simpl;
        split; eauto; try discriminate; intros [? [=]].
    - destruct (parseAmount (importe row)); simpl;
        split; eauto; try discriminate; intros [? [=]]. }
  assert (forall rows : list CSVRow, omap built rows
            = omap built (filter (fun row => wellFormed row = true) rows)) as Hf.
  { induction rows as [|row rows IH]; [reflexivity|].
    rewrite filter_cons. destruct (decide (wellFormed row = true)) as [Hw|Hw].
    - rewrite !omap_built_cons, <- IH. reflexivity.
    - rewrite omap_built_cons. destruct (built row) eqn:E; [|exact IH].
      exfalso. apply Hw, Hb. eauto. }
  assert (forall rows : list CSVRow, Forall (fun row => wellFormed row = true) rows ->
            length (omap built rows) = length rows) as Hl.
  { induction 1 as [|row rows Hw _ IH]; [reflexivity|]. rewrite omap_built_cons.
    apply Hb in Hw as [t ->]. simpl. rewrite IH. reflexivity. }
  destruct (transformStep_fold csvRows {| transactions := []; errorLog := [] |})
    as [Ht He].
  unfold transformToTransactions, transformRun. rewrite Ht, He. simpl.
  split; [reflexivity|]. split; [exact Hb|]. split; [|split; [apply Hf|split]].
  - intros row. unfold wellFormed.
    assert (JS.truthy (fecha row) = true <-> fecha row <> "") as Htruthy.
    { destruct (fecha row); simpl; split; congruence. }
    destruct (convertDate (valorDate row)) as [date|m1];
      [|split; [eauto | reflexivity]].
    destruct (JS.truthy (fecha row)); simpl.
    + destruct (convertDate (fecha row)) as [d2|m2]; simpl.
      * destruct (parseAmount (importe row)) as [a|m3]; simpl.
        -- split; [discriminate|]. intros [[? [=]]|[[_ [? [=]]]|[? [=]]]].
        -- split; [eauto|reflexivity].
      * split; [|reflexivity]. intros _. right. left.
        split; [apply Htruthy; reflexivity | eauto].
    + destruct (parseAmount (importe row)) as [a|m3]; simpl.
      * split; [discriminate|]. intros [[? [=]]|[[Hne _]|[? [=]]]].
        apply Htruthy in Hne. discriminate.
      * split; [eauto|reflexivity].
  - rewrite Hf. apply Hl. apply Forall_forall. intros row Hin.
    apply list_elem_of_filter in Hin as [Hw _]. exact Hw.
  - reflexivity.
Qed.

(** C10. For a row whose amount parses to zero (of either sign), the
    transaction built from it, if its dates let one be built, has type
    ['income'] and amount 0; this holds for the record returned by the
    builder and for whatever [transformToTransactions] puts out for the row.
    More generally the type is ['expense'] exactly when the parsed amount is
    below zero. *)
Theorem zero_amount_is_income (row : CSVRow) (zero : JS.number) :
  parseAmount (importe row) = Return zero ->
  isZero zero ->
  (forall t, buildTransaction row = Return t ->
             Tx.type t = income /\ Tx.amount t = S754_zero false) /\
  (forall t, t ∈ transformToTransactions [row] ->
             Tx.type t = income /\ Tx.amount t = S754_zero false) /\
  (forall row' amount t,
      parseAmount (importe row') = Return amount ->
      buildTransaction row' = Return t ->
      (Tx.type t = expense <-> JS.lt amount (JS.ofNat 0) = true)).
Proof.
  intros Hparse [s ->].
  assert (forall t, buildTransaction row = Return t ->
            Tx.type t = income /\ Tx.amount t = S754_zero false) as Hb.
  { intros t. unfold buildTransaction. rewrite Hparse.
    destruct (convertDate (valorDate row)) as [date|]; simpl; [|discriminate].
    destruct (if JS.truthy (fecha row) then convertDate (fecha row) else Return date);
      simpl; [|discriminate].
    intros [= <-]. simpl. destruct s; split; reflexivity. }
  split; [exact Hb|]. split.
  - intros t. unfold transformToTransactions, transformRun. simpl. unfold transformStep.
    destruct (buildTransaction row) as [t'|] eqn:E; simpl.
    + intros Ht. apply list_elem_of_singleton in Ht as ->. apply Hb. reflexivity.
    + intros Ht. inversion Ht.
  - intros row' amount t Hp. unfold buildTransaction. rewrite Hp.
    destruct (convertDate (valorDate row')) as [date|]; simpl; [|discriminate].
    destruct (if JS.truthy (fecha row') then convertDate (fecha row') else Return date);
      simpl; [|discriminate].
    intros [= <-]. simpl. destruct (JS.lt amount (JS.ofNat 0)); split; congruence.
Qed.

Lemma zero_amount_is_income_witness :
  parseAmount (importe zeroAmountRow) = Return (S754_zero true) /\
  (exists t, transformToTransactions [zeroAmountRow] = [t] /\
             Tx.type t = income /\ Tx.amount t = S754_zero false).
Proof.
  split; [vm_compute; reflexivity|].
  destruct (transformToTransactions [zeroAmountRow]) as [|t l] eqn:E;
    [vm_compute in E; discriminate|].
  destruct l; [|vm_compute in E; discriminate].
  exists t. split; [reflexivity|].
  apply (zero_amount_is_income zeroAmountRow (S754_zero true)).
  - vm_compute. reflexivity.
  - exists true. reflexivity.
  - rewrite E. apply list_elem_of_singleton. reflexivity.
Defined.

(** ** Identity hasher *)

Lemma barFree_app (s t : string) : barFree (s ++ t) = barFree s && barFree t.
Proof.
  induction s as [|c s IH]; [reflexivity|].
  rewrite append_cons. simpl. rewrite IH, andb_assoc. reflexivity.
Qed.

Lemma barFree_substring (n m : nat) (s : string) :
  barFree s = true -> barFree (String.substring n m s) = true.
Proof.
  revert n m. induction s as [|c s IH]; intros n m H.
  - destruct n, m; reflexivity.
  - simpl in H. apply andb_true_iff in H as [Hc Hs].
    destruct n as [|n]; simpl.
    + destruct m as [|m]; [reflexivity|]. simpl. rewrite Hc. apply IH, Hs.
    + apply IH, Hs.
Qed.

Lemma barFree_zeros (n : nat) : barFree (JS.zeros n) = true.
Proof. induction n as [|n IH]; [reflexivity | exact IH]. Qed.

Lemma digitChar_not_bar (n : Z) : Ascii.eqb (JS.digitChar (n mod 10)) "|" = false.
Proof.
  unfold JS.digitChar.
  assert (Z.to_nat (n mod 10) < 10)%nat as Hlt
    by (pose proof (Z.mod_pos_bound n 10); lia).
  remember (Z.to_nat (n mod 10)) as k eqn:Ek. clear Ek.
  do 10 (destruct k as [|k]; [reflexivity|]). lia.
Qed.

Lemma barFree_digitsOf (fuel : nat) (n : Z) (acc : string) :
  barFree acc = true -> barFree (JS.digitsOf fuel n acc) = true.
Proof.
  revert n acc. induction fuel as [|fuel IH]; intros n acc H; simpl; [exact H|].
  assert (barFree (String (JS.digitChar (n mod 10)) acc) = true) as H'
    by (simpl; rewrite digitChar_not_bar, H; reflexivity).
  destruct (n <? 10)%Z; [exact H' | apply IH, H'].
Qed.

Lemma barFree_intToString (n : Z) : barFree (JS.intToString n) = true.
Proof. apply barFree_digitsOf. reflexivity. Qed.

Lemma barFree_formatDigits (s k n : Z) : barFree (JS.formatDigits s k n) = true.
Proof.
  assert (barFree (JS.exponentSuffix n) = true) as He.
  { unfold JS.exponentSuffix. simpl. rewrite barFree_intToString.
    destruct (0 <? n - 1)%Z; reflexivity. }
  unfold JS.formatDigits.
  repeat match goal with |- context [if ?b then _ else _] => destruct b end;
    rewrite ?barFree_app, ?barFree_zeros, ?He, ?barFree_intToString,
      ?(barFree_substring _ _ _ (barFree_intToString s)); reflexivity.
Qed.

(** The decimal rendering of a number never holds the delimiter. *)
Lemma barFree_Number_toString (x : JS.number) : barFree (JS.Number_toString x) = true.
Proof.
  destruct x as [s|s| |s m e]; simpl; try reflexivity.
  - destruct s; reflexivity.
  - destruct (JS.shortestDigits m e) as [[d k] n].
    rewrite barFree_app, barFree_formatDigits. destruct s; reflexivity.
Qed.

(** A delimiter-free head is read back from a delimited string. *)
Lemma delimited_injective (s s' r r' : string) :
  barFree s = true -> barFree s' = true ->
  s ++ "|" ++ r = s' ++ "|" ++ r' -> s = s' /\ r = r'.
Proof.
  revert s'. induction s as [|c s IH]; intros [|c' s'] Hs Hs' E;
    rewrite ?append_cons, ?append_nil in E.
  - injection E as ->. split; reflexivity.
  - injection E as <- _. simpl in Hs'. discriminate.
  - injection E as -> _. simpl in Hs. discriminate.
  - injection E as -> E. simpl in Hs, Hs'.
    apply andb_true_iff in Hs as [_ Hs]. apply andb_true_iff in Hs' as [_ Hs'].
    destruct (IH s' Hs Hs' E) as [-> ->]. split; reflexivity.
Qed.

(** C4 (as the code has it). [generateId] is a function of the six-field
    tuple, the amount counting through its absolute value: equal tuples give
    equal ids, and more generally equal hash inputs give equal ids.  Two
    tuples whose date, description and movement fields hold no ['|'] have
    the same hash input only if they agree on all six fields (the absolute
    amount being compared through its decimal rendering); nothing is
    promised on the ids of tuples whose hash inputs differ. *)
Theorem generateId_deterministic :
  (forall v f d m a a' b,
      JS.Math_abs a = JS.Math_abs a' ->
      generateId v f d m a b = generateId v f d m a' b) /\
  (forall v f d m a b v' f' d' m' a' b',
      combined v f d m a b = combined v' f' d' m' a' b' ->
      generateId v f d m a b = generateId v' f' d' m' a' b') /\
  (forall v f d m a b v' f' d' m' a' b',
      barFree v = true -> barFree f = true -> barFree d = true -> barFree m = true ->
      barFree v' = true -> barFree f' = true -> barFree d' = true -> barFree m' = true ->
      combined v f d m a b = combined v' f' d' m' a' b' ->
      v = v' /\ f = f' /\ d = d' /\ m = m' /\
      JS.Number_toString (JS.Math_abs a) = JS.Number_toString (JS.Math_abs a') /\
      b = b').
Proof.
  split; [|split].
  - intros v f d m a a' b H. unfold generateId, combined. rewrite H. reflexivity.
  - intros v f d m a b v' f' d' m' a' b' H. unfold generateId. rewrite H. reflexivity.
  - intros v f d m a b v' f' d' m' a' b' Hv Hf Hd Hm Hv' Hf' Hd' Hm' E.
    unfold combined in E.
    apply delimited_injective in E as [-> E]; [|assumption..].
    apply delimited_injective in E as [-> E]; [|assumption..].
    apply delimited_injective in E as [-> E]; [|assumption..].
    apply delimited_injective in E as [-> E]; [|assumption..].
    apply delimited_injective in E as [E ->];
      [|apply barFree_Number_toString..].
    repeat split; exact E.
Qed.

Lemma generateId_deterministic_witness :
  generateId "2024-03-15" "2024-03-15" "SUPERMART MADRID" "COMPRA TARJETA"
             (JS.parseFloat "-45.30") "1234,56"
  = generateId "2024-03-15" "2024-03-15" "SUPERMART MADRID" "COMPRA TARJETA"
               (JS.parseFloat "45.30") "1234,56".
Proof.
  destruct generateId_deterministic as (Habs & _).
  apply Habs. vm_compute. reflexivity.
Defined.

(** C4, counterexample to the clause on differing tuples: the two tuples
    differ in their description and in their movement detail, and
    [generateId] gives them the same id, because the delimiter inside a
    field makes the two hash inputs the same string. *)
Lemma generateId_collision_counterexample :
  ("PAGO A|B", "C") <> ("PAGO A", "B|C") /\
  generateId "2024-03-15" "2024-03-15" "PAGO A|B" "C" (JS.ofNat 5) "1234,56"
  = generateId "2024-03-15" "2024-03-15" "PAGO A" "B|C" (JS.ofNat 5) "1234,56" /\
  generateId "2024-03-15" "2024-03-15" "PAGO A|B" "C" (JS.ofNat 5) "1234,56"
  = "tx_d54fbea223f0".
Proof. split; [discriminate|]. split; vm_compute; reflexivity. Qed.

(** ** Merge *)

Lemma mergeStep_fold (l : list ParsedTransaction) (st : MergeState) :
  fold_left mergeStep l st
  = {| existingIds := idsOf (newRecords (existingIds st) l) ∪ existingIds st;
       merged := (merged st ++ newRecords (existingIds st) l)%list;
       addedCount := addedCount st + length (newRecords (existingIds st) l) |}.
Proof.
  revert st. induction l as [|t l IH]; intros st; simpl.
  - destruct st as [ids m n]; simpl. f_equal.
    + unfold idsOf. simpl. set_solver.
    + rewrite app_nil_r. reflexivity.
    + lia.
  - rewrite IH. unfold mergeStep. destruct (decide (Tx.id t ∈ existingIds st)); simpl.
    + reflexivity.
    + f_equal.
      * unfold idsOf. simpl. set_solver.
      * rewrite <- app_assoc. reflexivity.
      * lia.
Qed.

Lemma mergeLoop_spec (existing newTransactions : list ParsedTransaction) :
  merged (mergeLoop existing newTransactions)
    = (existing ++ newRecords (idsOf existing) newTransactions)%list /\
  addedCount (mergeLoop existing newTransactions)
    = length (newRecords (idsOf existing) newTransactions) /\
  existingIds (mergeLoop existing newTransactions)
    = idsOf (merged (mergeLoop existing newTransactions)).
Proof.
  unfold mergeLoop. rewrite mergeStep_fold. simpl. repeat split.
  unfold idsOf. rewrite fmap_app, list_to_set_app_L. set_solver.
Qed.

Lemma newRecords_sublist (seen : gset string) (l : list ParsedTransaction) :
  sublist (newRecords seen l) l.
Proof.
  revert seen. induction l as [|t l IH]; intros seen; simpl.
  - constructor.
  - destruct (decide (Tx.id t ∈ seen)).
    + apply sublist_cons, IH.
    + apply sublist_skip, IH.
Qed.

Lemma newRecords_not_seen (seen : gset string) (l : list ParsedTransaction)
    (t : ParsedTransaction) :
  t ∈ newRecords seen l -> Tx.id t ∉ seen.
Proof.
  revert seen. induction l as [|u l IH]; intros seen; simpl.
  - intros H. inversion H.
  - destruct (decide (Tx.id u ∈ seen)) as [Hin|Hout].
    + apply IH.
    + intros H. apply elem_of_cons in H as [->|H]; [exact Hout|].
      apply IH in H. set_solver.
Qed.

Lemma newRecords_NoDup (seen : gset string) (l : list ParsedTransaction) :
  NoDup (Tx.id <$> newRecords seen l).
Proof.
  revert seen. induction l as [|u l IH]; intros seen; simpl.
  - constructor.
  - destruct (decide (Tx.id u ∈ seen)); [apply IH|].
    rewrite fmap_cons. constructor; [|apply IH].
    intros H. apply list_elem_of_fmap in H as (t & Ht & Hin).
    apply newRecords_not_seen in Hin. set_solver.
Qed.

(** A record is appended exactly when it stands in the incoming list with
    an id that is not among [seen] and that no earlier incoming record has. *)
Lemma newRecords_elem (seen : gset string) (l : list ParsedTransaction)
    (t : ParsedTransaction) :
  t ∈ newRecords seen l <->
  exists k, l !! k = Some t /\ (Tx.id t ∉ seen) /\
            forall k' t', (k' < k)%nat -> l !! k' = Some t' -> Tx.id t' <> Tx.id t.
Proof.
  revert seen. induction l as [|u l IH]; intros seen; simpl.
  - split; [intros H; inversion H | intros (k & H & _); destruct k; discriminate].
  - destruct (decide (Tx.id u ∈ seen)) as [Hin|Hout].
    + rewrite IH. split.
      * intros (k & Hk & Hs & Hfirst). exists (S k). repeat split; [exact Hk|exact Hs|].
        intros [|k'] t' Hlt Hk'; simpl in Hk'.
        -- injection Hk' as <-. intros E. rewrite E in Hin. contradiction.
        -- apply (Hfirst k'); [lia | exact Hk'].
      * intros ([|k] & Hk & Hs & Hfirst); simpl in Hk.
        -- injection Hk as ->. contradiction.
        -- exists k. repeat split; [exact Hk|exact Hs|].
           intros k' t' Hlt Hk'. apply (Hfirst (S k')); [lia | exact Hk'].
    + rewrite elem_of_cons, IH. split.
      * intros [->|(k & Hk & Hs & Hfirst)].
        -- exists 0%nat. repeat split; [exact Hout | intros; lia].
        -- exists (S k). repeat split; [exact Hk | set_solver |].
           intros [|k'] t' Hlt Hk'; simpl in Hk'.
           ++ injection Hk' as <-. set_solver.
           ++ apply (Hfirst k'); [lia | exact Hk'].
      * intros ([|k] & Hk & Hs & Hfirst); simpl in Hk.
        -- left. congruence.
        -- right. exists k. repeat split; [exact Hk | |].
           ++ specialize (Hfirst 0%nat u ltac:(lia) eq_refl). set_solver.
           ++ intros k' t' Hlt Hk'. apply (Hfirst (S k')); [lia | exact Hk'].
Qed.

Lemma newRecords_length (seen : gset string) (l : list ParsedTransaction) :
  length (newRecords seen l) = size (idsOf l ∖ seen).
Proof.
  revert seen. induction l as [|u l IH]; intros seen; simpl.
  - unfold idsOf. simpl. rewrite difference_disjoint_L by set_solver.
    rewrite size_empty. reflexivity.
  - destruct (decide (Tx.id u ∈ seen)) as [Hin|Hout].
    + rewrite IH. f_equal. unfold idsOf. simpl. set_solver.
    + simpl. rewrite IH.
      assert (idsOf (u :: l) ∖ seen
              = {[ Tx.id u ]} ∪ idsOf l ∖ ({[ Tx.id u ]} ∪ seen)) as ->
        by (unfold idsOf; simpl; apply set_eq; intros x;
            destruct (decide (x = Tx.id u)); set_solver).
      rewrite (size_union (C := gset string) {[ Tx.id u ]}) by set_solver.
      rewrite size_singleton. reflexivity.
Qed.

Lemma newRecords_all_seen (seen : gset string) (l : list ParsedTransaction) :
  (forall t, t ∈ l -> Tx.id t ∈ seen) -> newRecords seen l = [].
Proof.
  induction l as [|u l IH]; intros H; simpl; [reflexivity|].
  rewrite decide_True by (apply H; left).
  apply IH. intros t Ht. apply H. right. exact Ht.
Qed.

Lemma filter_agree {A : Type} (P Q : A -> Prop)
    `{!forall x, Decision (P x)} `{!forall x, Decision (Q x)} (l : list A) :
  (forall x, x ∈ l -> (P x <-> Q x)) -> filter P l = filter Q l.
Proof.
  induction l as [|x l IH]; intros Hagree; [reflexivity|].
  rewrite !filter_cons.
  rewrite IH by (intros y Hy; apply Hagree; right; exact Hy).
  pose proof (Hagree x (list_elem_of_here _ _)) as Hx.
  destruct (decide (P x)) as [HP|HP], (decide (Q x)) as [HQ|HQ];
    try reflexivity; tauto.
Qed.

Lemma newRecords_filter (seen : gset string) (l : list ParsedTransaction) :
  NoDup (Tx.id <$> l) ->
  newRecords seen l = filter (fun t => Tx.id t ∉ seen) l.
Proof.
  revert seen. induction l as [|u l IH]; intros seen Hnd; simpl; [reflexivity|].
  rewrite fmap_cons in Hnd. apply NoDup_cons in Hnd as [Hu Hnd].
  rewrite filter_cons. destruct (decide (Tx.id u ∈ seen)) as [Hin|Hout].
  - rewrite decide_False by (intros H; apply H, Hin). apply IH, Hnd.
  - rewrite decide_True by exact Hout. f_equal. rewrite (IH _ Hnd).
    apply filter_agree. intros t Ht. split; [set_solver|].
    intros Hs. apply not_elem_of_union. split; [|exact Hs].
    intros E. apply elem_of_singleton in E. apply Hu. rewrite <- E.
    apply list_elem_of_fmap. eauto.
Qed.

(** *** The sort *)

Lemma sortInsert_Permutation {A : Type} (comparefn : A -> A -> option Z)
    (x : A) (l : list A) :
  JS.sortInsert comparefn x l ≡ₚ x :: l.
Proof.
  induction l as [|y l IH]; simpl; [reflexivity|].
  destruct (0 <? JS.SortCompare comparefn x y)%Z; [|reflexivity].
  rewrite IH. apply Permutation_swap.
Qed.

Lemma sort_Permutation {A : Type} (comparefn : A -> A -> option Z) (l : list A) :
  JS.sort comparefn l ≡ₚ l.
Proof.
  induction l as [|x l IH]; [reflexivity|].
  unfold JS.sort in *. simpl. rewrite sortInsert_Permutation, IH. reflexivity.
Qed.

Section MergeProperties.

Variable getTime : string -> option Z.

Lemma SortCompare_valid (a b : ParsedTransaction) (ta tb : Z) :
  timeOf getTime a = Some ta -> timeOf getTime b = Some tb ->
  JS.SortCompare (compareByDate getTime) a b = (tb - ta)%Z.
Proof.
  unfold timeOf, JS.SortCompare, compareByDate. intros -> ->.
  destruct (tb =? ta)%Z eqn:E; simpl; [|reflexivity].
  apply Z.eqb_eq in E. lia.
Qed.

Lemma sortInsert_sorted (x : ParsedTransaction) (l : list ParsedTransaction) :
  validDate getTime x -> Forall (validDate getTime) l -> StronglySorted (notOlder getTime) l ->
  StronglySorted (notOlder getTime) (JS.sortInsert (compareByDate getTime) x l).
Proof.
  intros [tx Hx] Hv Hs. induction Hs as [|y l Hs IH Hy]; simpl.
  - repeat constructor.
  - apply Forall_cons in Hv as [[ty Hty] Hv].
    rewrite (SortCompare_valid x y tx ty Hx Hty).
    destruct (0 <? ty - tx)%Z eqn:E.
    + apply Z.ltb_lt in E. constructor; [apply IH, Hv|].
      rewrite sortInsert_Permutation. constructor; [|exact Hy].
      exists ty, tx. repeat split; [exact Hty | exact Hx | lia].
    + apply Z.ltb_ge in E. constructor; [constructor; assumption|].
      constructor.
      * exists tx, ty. repeat split; [exact Hx | exact Hty | lia].
      * eapply Forall_impl; [exact Hy|]. intros z (ty' & tz & Hty' & Htz & Hle).
        exists tx, tz. repeat split; [exact Hx | exact Htz |].
        rewrite Hty in Hty'. injection Hty' as <-. lia.
Qed.

Lemma sort_sorted (l : list ParsedTransaction) :
  Forall (validDate getTime) l ->
  StronglySorted (notOlder getTime) (JS.sort (compareByDate getTime) l).
Proof.
  induction l as [|x l IH]; intros Hv.
  - constructor.
  - apply Forall_cons in Hv as [Hx Hv]. unfold JS.sort in *. simpl.
    apply sortInsert_sorted; [exact Hx | | apply IH, Hv].
    change (Forall (validDate getTime) (JS.sort (compareByDate getTime) l)).
    rewrite sort_Permutation. exact Hv.
Qed.

Lemma sortInsert_stable (d : Z) (x : ParsedTransaction) (l : list ParsedTransaction) :
  validDate getTime x -> Forall (validDate getTime) l ->
  filter (fun t => timeOf getTime t = Some d) (JS.sortInsert (compareByDate getTime) x l)
  = filter (fun t => timeOf getTime t = Some d) (x :: l).
Proof.
  intros [tx Hx] Hv. induction l as [|y l IH]; simpl; [reflexivity|].
  apply Forall_cons in Hv as [[ty Hty] Hv].
  rewrite (SortCompare_valid x y tx ty Hx Hty).
  destruct (0 <? ty - tx)%Z eqn:E; [|reflexivity].
  apply Z.ltb_lt in E. rewrite filter_cons, (IH Hv), !filter_cons.
  destruct (decide (timeOf getTime y = Some d)) as [Hyd|Hyd],
           (decide (timeOf getTime x = Some d)) as [Hxd|Hxd]; try reflexivity.
  exfalso. rewrite Hty in Hyd. rewrite Hx in Hxd. injection Hyd. injection Hxd. lia.
Qed.

Lemma sort_stable (d : Z) (l : list ParsedTransaction) :
  Forall (validDate getTime) l ->
  filter (fun t => timeOf getTime t = Some d) (JS.sort (compareByDate getTime) l)
  = filter (fun t => timeOf getTime t = Some d) l.
Proof.
  induction l as [|x l IH]; intros Hv; [reflexivity|].
  apply Forall_cons in Hv as [Hx Hv]. unfold JS.sort in *. simpl.
  rewrite sortInsert_stable; [| exact Hx |].
  - rewrite !filter_cons, (IH Hv). reflexivity.
  - change (Forall (validDate getTime) (JS.sort (compareByDate getTime) l)).
    rewrite sort_Permutation. exact Hv.
Qed.

(** A list already in descending order of date is left as it is. *)
Lemma sort_sorted_id (l : list ParsedTransaction) :
  Sorted (notOlder getTime) l -> JS.sort (compareByDate getTime) l = l.
Proof.
  induction 1 as [|x l Hs IH Hhd]; [reflexivity|].
  unfold JS.sort in *. simpl. rewrite IH.
  destruct Hhd as [|y l (tx & ty & Hx & Hy & Hle)]; simpl; [reflexivity|].
  rewrite (SortCompare_valid x y tx ty Hx Hy).
  destruct (0 <? ty - tx)%Z eqn:E; [apply Z.ltb_lt in E; lia | reflexivity].
Qed.

(** C3 (as the code has it). The result of [mergeTransactions] is a
    rearrangement of the existing records followed by the [added] ones, so
    every existing record is in it, as often as it was in [existing].  The
    added records are taken from the new ones in their order: a new record
    is added exactly when its id is no id of an existing record and no
    earlier new record has that id, so on a collision with an existing id
    nothing is added and the existing record stays.  The result has
    [|existing|] records plus one per distinct new id that is no existing
    id; when the new ids are pairwise different this is the number of new
    records whose id is no existing id. *)
Theorem merge_conservation (existing newTransactions : list ParsedTransaction) :
  exists added : list ParsedTransaction,
    mergeTransactions getTime existing newTransactions ≡ₚ (existing ++ added)%list /\
    (forall t, t ∈ existing -> t ∈ mergeTransactions getTime existing newTransactions) /\
    sublist added newTransactions /\
    NoDup (Tx.id <$> added) /\
    (forall t, t ∈ added <->
       exists k, newTransactions !! k = Some t /\
                 (Tx.id t ∉ idsOf existing) /\
                 forall k' t', (k' < k)%nat -> newTransactions !! k' = Some t' ->
                               Tx.id t' <> Tx.id t) /\
    length (mergeTransactions getTime existing newTransactions)
      = (length existing + size (idsOf newTransactions ∖ idsOf existing))%nat /\
    (NoDup (Tx.id <$> newTransactions) ->
     added = filter (fun t => Tx.id t ∉ idsOf existing) newTransactions /\
     length (mergeTransactions getTime existing newTransactions)
       = (length existing +
          length (filter (fun t => Tx.id t ∉ idsOf existing) newTransactions))%nat).
Proof.
  exists (newRecords (idsOf existing) newTransactions).
  destruct (mergeLoop_spec existing newTransactions) as (Hm & _ & _).
  assert (mergeTransactions getTime existing newTransactions
          ≡ₚ (existing ++ newRecords (idsOf existing) newTransactions)%list) as Hperm.
  { unfold mergeTransactions. rewrite sort_Permutation, Hm. reflexivity. }
  assert (length (mergeTransactions getTime existing newTransactions)
          = (length existing + length (newRecords (idsOf existing) newTransactions))%nat)
    as Hlen.
  { rewrite Hperm, length_app. reflexivity. }
  split; [exact Hperm|]. split; [|split; [|split; [|split; [|split]]]].
  - intros t Ht. rewrite Hperm. apply elem_of_app. left. exact Ht.
  - apply newRecords_sublist.
  - apply newRecords_NoDup.
  - intros t. apply newRecords_elem.
  - rewrite Hlen, newRecords_length. reflexivity.
  - intros Hnd. rewrite Hlen, (newRecords_filter _ _ Hnd). split; reflexivity.
Qed.

(** C5 (as the code has it). When every id of the incoming batch is already
    an id of the store, the loop adds nothing: the count of added records
    is 0 and the array before the sort is the store.  The result holds the
    records of the store, and it is the store itself, in the same order,
    when the store is in descending order of date. *)
Theorem merge_reimport (existing newTransactions : list ParsedTransaction) :
  (forall t, t ∈ newTransactions -> Tx.id t ∈ idsOf existing) ->
  addedCount (mergeLoop existing newTransactions) = 0%nat /\
  merged (mergeLoop existing newTransactions) = existing /\
  mergeTransactions getTime existing newTransactions ≡ₚ existing /\
  (Sorted (notOlder getTime) existing ->
   mergeTransactions getTime existing newTransactions = existing).
Proof.
  intros Hids. destruct (mergeLoop_spec existing newTransactions) as (Hm & Hc & _).
  rewrite (newRecords_all_seen _ _ Hids) in Hm, Hc. rewrite app_nil_r in Hm.
  unfold mergeTransactions. rewrite Hm. repeat split.
  - exact Hc.
  - apply sort_Permutation.
  - apply sort_sorted_id.
Qed.

(** C6 (as the code has it). When the dates of all the records are valid,
    the output of [mergeTransactions] is in descending order of date, and
    for each date the records of that date stand in the output in the order
    they had before the sort, which is the existing records in their order
    followed by the added new ones in theirs. *)
Theorem merge_sorted_stable (existing newTransactions : list ParsedTransaction) :
  Forall (validDate getTime) existing -> Forall (validDate getTime) newTransactions ->
  StronglySorted (notOlder getTime) (mergeTransactions getTime existing newTransactions) /\
  (forall d : Z,
      filter (fun t => timeOf getTime t = Some d)
             (mergeTransactions getTime existing newTransactions)
      = filter (fun t => timeOf getTime t = Some d)
               (merged (mergeLoop existing newTransactions))) /\
  (exists added,
      merged (mergeLoop existing newTransactions) = (existing ++ added)%list /\
      sublist added newTransactions).
Proof.
  intros He Hn. destruct (mergeLoop_spec existing newTransactions) as (Hm & _ & _).
  assert (Forall (validDate getTime) (merged (mergeLoop existing newTransactions))) as Hv.
  { rewrite Hm. apply Forall_app. split; [exact He|].
    apply Forall_forall. intros t Ht.
    apply (proj1 (Forall_forall _ _) Hn).
    eapply elem_of_sublist; [exact Ht | apply newRecords_sublist]. }
  unfold mergeTransactions. split; [apply sort_sorted, Hv|]. split.
  - intros d. apply sort_stable, Hv.
  - exists (newRecords (idsOf existing) newTransactions).
    split; [exact Hm | apply newRecords_sublist].
Qed.

End MergeProperties.

(** *** The merge on concrete stores, dates read by [JS.isoDateTime] *)

Lemma merge_conservation_witness :
  length (mergeTransactions JS.isoDateTime [metro; coffee] [coffee; payroll; cinema])
  = (length [metro; coffee] +
     length (filter (fun t => Tx.id t ∉ idsOf [metro; coffee])
                    [coffee; payroll; cinema]))%nat.
Proof.
  destruct (merge_conservation JS.isoDateTime [metro; coffee] [coffee; payroll; cinema])
    as (added & _ & _ & _ & _ & _ & _ & Hdistinct).
  apply Hdistinct. apply (bool_decide_unpack _). vm_compute. exact I.
Defined.

(** C3, counterexample to the count and to "adds exactly the incoming
    records whose ids are absent from E": the store is empty, the two
    incoming records are different and share an id that is absent from the
    store, and only the first of them is in the result, which has one
    record where the claim counts two. *)
Lemma merge_duplicate_incoming_counterexample :
  transformToTransactions [chargeRow; refundRow] = [charge; refund] /\
  charge <> refund /\
  (Tx.id refund ∉ idsOf []) /\
  mergeTransactions JS.isoDateTime [] [charge; refund] = [charge] /\
  (refund ∉ mergeTransactions JS.isoDateTime [] [charge; refund]) /\
  length (mergeTransactions JS.isoDateTime [] [charge; refund]) = 1%nat /\
  (length (@nil ParsedTransaction) +
   length (filter (fun t => Tx.id t ∉ idsOf []) [charge; refund]))%nat = 2%nat.
Proof.
  assert (mergeTransactions JS.isoDateTime [] [charge; refund] = [charge]) as E
    by (vm_compute; reflexivity).
  rewrite E. split; [vm_compute; reflexivity|]. repeat split.
  - discriminate.
  - unfold idsOf. simpl. set_solver.
  - intros H. apply list_elem_of_singleton in H. discriminate.
Qed.

Lemma merge_reimport_witness :
  addedCount (mergeLoop [payroll; metro; cinema; coffee] [cinema; coffee]) = 0%nat /\
  mergeTransactions JS.isoDateTime [payroll; metro; cinema; coffee] [cinema; coffee]
  = [payroll; metro; cinema; coffee].
Proof.
  destruct (merge_reimport JS.isoDateTime [payroll; metro; cinema; coffee] [cinema; coffee])
    as (Hcount & _ & _ & Hsame).
  - intros t Ht. apply (bool_decide_unpack _).
    apply elem_of_cons in Ht as [->|Ht]; [vm_compute; exact I|].
    apply list_elem_of_singleton in Ht as ->. vm_compute. exact I.
  - split; [exact Hcount|]. apply Hsame.
    repeat constructor.
    + exists 1704153600000%Z, 1704067200000%Z. repeat split; lia.
    + exists 1704153600000%Z, 1704153600000%Z. repeat split; lia.
    + exists 1704240000000%Z, 1704153600000%Z. repeat split; lia.
Defined.

(** C5, counterexample to "returns the store with its order unchanged":
    every id of the batch, which is the store itself, is in the store;
    nothing is added; and the result is the store in the other order,
    because the store was not in descending order of date. *)
Lemma merge_reimport_counterexample :
  Forall (fun t => Tx.id t ∈ idsOf [coffee; metro]) [coffee; metro] /\
  addedCount (mergeLoop [coffee; metro] [coffee; metro]) = 0%nat /\
  mergeTransactions JS.isoDateTime [coffee; metro] [coffee; metro] = [metro; coffee] /\
  mergeTransactions JS.isoDateTime [coffee; metro] [coffee; metro] <> [coffee; metro].
Proof.
  assert (mergeTransactions JS.isoDateTime [coffee; metro] [coffee; metro]
          = [metro; coffee]) as E by (vm_compute; reflexivity).
  rewrite E. repeat split.
  - repeat constructor; apply (bool_decide_unpack _); vm_compute; exact I.
  - discriminate.
Qed.

Lemma merge_sorted_stable_witness :
  StronglySorted (notOlder JS.isoDateTime)
    (mergeTransactions JS.isoDateTime [coffee; metro] [cinema; payroll]) /\
  mergeTransactions JS.isoDateTime [coffee; metro] [cinema; payroll]
  = [payroll; metro; cinema; coffee].
Proof.
  split; [|vm_compute; reflexivity].
  apply (merge_sorted_stable JS.isoDateTime [coffee; metro] [cinema; payroll]).
  - repeat constructor; eexists; vm_compute; reflexivity.
  - repeat constructor; eexists; vm_compute; reflexivity.
Defined.

(** C6, counterexample to "for every existing list and incoming list the
    output is sorted by date in descending order": the date of the second
    record of the store is not a date, so the comparator answers NaN
    whenever it is asked about that record, the sort leaves the three
    records where they are, and the record of 1 January stays in front of
    the record of 2 January. *)
Lemma merge_invalid_date_counterexample :
  mergeTransactions JS.isoDateTime [coffee; undated; metro] []
  = [coffee; undated; metro] /\
  timeOf JS.isoDateTime coffee = Some 1704067200000%Z /\
  timeOf JS.isoDateTime undated = None /\
  timeOf JS.isoDateTime metro = Some 1704153600000%Z /\
  ~ StronglySorted
      (fun a b => forall ta tb, timeOf JS.isoDateTime a = Some ta ->
                                timeOf JS.isoDateTime b = Some tb -> (tb <= ta)%Z)
      (mergeTransactions JS.isoDateTime [coffee; undated; metro] []).
Proof.
  assert (mergeTransactions JS.isoDateTime [coffee; undated; metro] []
          = [coffee; undated; metro]) as E by (vm_compute; reflexivity).
  rewrite E. repeat split.
  intros Hs. apply StronglySorted_inv in Hs as [_ Hall].
  apply Forall_cons in Hall as [_ Hall]. apply Forall_cons in Hall as [Hcm _].
  specialize (Hcm 1704067200000%Z 1704153600000%Z eq_refl eq_refl). lia.
Qed.

(** * Further properties *)

(** ** White space and splitting *)

Lemma trimEnd_idem (s : string) : JS.trimEnd (JS.trimEnd s) = JS.trimEnd s.
Proof.
  induction s as [|c s IH]; [reflexivity|]. simpl.
  destruct (JS.trimEnd s) as [|d r] eqn:E.
  - destruct (JS.isWhiteSpace c) eqn:W; simpl; [reflexivity|]. rewrite W. reflexivity.
  - change (JS.trimEnd (String c (String d r))) with
      (match JS.trimEnd (String d r) with
       | EmptyString =>
           if JS.isWhiteSpace c then EmptyString else String c EmptyString
       | r' => String c r'
       end).
    rewrite IH. reflexivity.
Qed.

Lemma trimStart_head (s : string) :
  JS.trimStart s = "" \/
  exists c r, JS.trimStart s = String c r /\ JS.isWhiteSpace c = false.
Proof.
  induction s as [|c s IH]; simpl; [left; reflexivity|].
  destruct (JS.isWhiteSpace c) eqn:W; [exact IH | right; eauto].
Qed.

Lemma trim_idem (s : string) : JS.trim (JS.trim s) = JS.trim s.
Proof.
  unfold JS.trim.
  assert (JS.trimStart (JS.trimEnd (JS.trimStart s)) = JS.trimEnd (JS.trimStart s)) as ->.
  { destruct (trimStart_head s) as [->|(c & r & -> & W)]; [reflexivity|].
    simpl. destruct (JS.trimEnd r); rewrite ?W; simpl; rewrite W; reflexivity. }
  apply trimEnd_idem.
Qed.

Lemma trimEnd_snoc (t : string) (w : ascii) :
  JS.isWhiteSpace w = true -> JS.trimEnd (t ++ String w "") = JS.trimEnd t.
Proof.
  intros W. induction t as [|c t IH].
  - rewrite append_nil. simpl. rewrite W. reflexivity.
  - rewrite append_cons. simpl. rewrite IH. reflexivity.
Qed.

(** White space at the end of a string does not show after [trim]. *)
Lemma trim_snoc (q : string) (w : ascii) :
  JS.isWhiteSpace w = true -> JS.trim (q ++ String w "") = JS.trim q.
Proof.
  intros W. unfold JS.trim. induction q as [|c q IH].
  - rewrite append_nil. simpl. rewrite W. reflexivity.
  - rewrite append_cons. simpl. destruct (JS.isWhiteSpace c); [exact IH|].
    rewrite <- append_cons. apply trimEnd_snoc, W.
Qed.

Lemma lacks_app (c : ascii) (s t : string) : lacks c (s ++ t) = lacks c s && lacks c t.
Proof.
  induction s as [|d s IH]; [reflexivity|].
  rewrite append_cons. simpl. rewrite IH, andb_assoc. reflexivity.
Qed.

Lemma lacks_trimStart (c : ascii) (s : string) :
  lacks c s = true -> lacks c (JS.trimStart s) = true.
Proof.
  induction s as [|d s IH]; intros H; simpl; [reflexivity|].
  destruct (JS.isWhiteSpace d); [|exact H].
  simpl in H. apply andb_true_iff in H as [_ H]. apply IH, H.
Qed.

Lemma lacks_trimEnd (c : ascii) (s : string) :
  lacks c s = true -> lacks c (JS.trimEnd s) = true.
Proof.
  induction s as [|d s IH]; intros H; simpl; [reflexivity|].
  simpl in H. apply andb_true_iff in H as [Hd H]. specialize (IH H).
  destruct (JS.trimEnd s).
  - destruct (JS.isWhiteSpace d); simpl; [reflexivity|]. rewrite Hd. reflexivity.
  - simpl in *. rewrite Hd. exact IH.
Qed.

Lemma lacks_trim (c : ascii) (s : string) :
  lacks c s = true -> lacks c (JS.trim s) = true.
Proof. intros H. apply lacks_trimEnd, lacks_trimStart, H. Qed.

Lemma split_cons (sep c : ascii) (s : string) :
  JS.split sep (String c s)
  = if Ascii.eqb c sep then EmptyString :: JS.split sep s
    else match JS.split sep s with
         | [] => [String c EmptyString]
         | piece :: pieces => String c piece :: pieces
         end.
Proof. reflexivity. Qed.

Lemma split_nonempty (sep : ascii) (s : string) : JS.split sep s <> [].
Proof.
  destruct s as [|c s]; [discriminate|]. rewrite split_cons.
  destruct (Ascii.eqb c sep); [discriminate|]. destruct (JS.split sep s); discriminate.
Qed.

(** The pieces hold no separator. *)
Lemma split_lacks_sep (sep : ascii) (s : string) :
  Forall (fun piece => lacks sep piece = true) (JS.split sep s).
Proof.
  induction s as [|c s IH]; [repeat constructor|]. rewrite split_cons.
  destruct (Ascii.eqb c sep) eqn:E; [constructor; [reflexivity | exact IH]|].
  destruct (JS.split sep s) as [|p ps]; [repeat constructor; simpl; rewrite E; reflexivity|].
  apply Forall_cons in IH as [Hp Hps]. constructor; [|exact Hps].
  simpl. rewrite E, Hp. reflexivity.
Qed.

(** The pieces hold no code unit that the string does not hold. *)
Lemma split_lacks (sep c : ascii) (s : string) :
  lacks c s = true -> Forall (fun piece => lacks c piece = true) (JS.split sep s).
Proof.
  induction s as [|d s IH]; intros H; [repeat constructor|]. rewrite split_cons.
  simpl in H. apply andb_true_iff in H as [Hd H]. specialize (IH H).
  destruct (Ascii.eqb d sep); [constructor; [reflexivity | exact IH]|].
  destruct (JS.split sep s) as [|p ps]; [repeat constructor; simpl; rewrite Hd; reflexivity|].
  apply Forall_cons in IH as [Hp Hps]. constructor; [|exact Hps].
  simpl. rewrite Hd, Hp. reflexivity.
Qed.

(** A piece without separator in front of a separator is the first piece. *)
Lemma split_app (sep : ascii) (a b : string) :
  lacks sep a = true ->
  JS.split sep (a ++ String sep b) = a :: JS.split sep b.
Proof.
  induction a as [|c a IH]; intros H.
  - rewrite append_nil, split_cons, Ascii.eqb_refl. reflexivity.
  - simpl in H. apply andb_true_iff in H as [Hc H].
    rewrite append_cons, split_cons, (IH H).
    destruct (Ascii.eqb c sep); [discriminate | reflexivity].
Qed.

(** A code unit that is no separator, put at the end, goes to the last
    piece. *)
Lemma split_snoc (sep c : ascii) (s : string) :
  Ascii.eqb c sep = false ->
  exists pieces last,
    JS.split sep s = (pieces ++ [last])%list /\
    JS.split sep (s ++ String c "") = (pieces ++ [(last ++ String c "")%string])%list.
Proof.
  intros Hc. induction s as [|d s (ps & q & E1 & E2)].
  - exists [], "". split; [reflexivity|].
    rewrite append_nil, split_cons, Hc. reflexivity.
  - rewrite append_cons, !split_cons, E1, E2.
    destruct (Ascii.eqb d sep).
    + exists (EmptyString :: ps), q. split; reflexivity.
    + destruct ps as [|p ps]; simpl.
      * exists [], (String d q). split; reflexivity.
      * exists (String d p :: ps), q. split; reflexivity.
Qed.

(** ** Statement files *)

Lemma parseCSVStep_fold (lines : list string) (acc : list CSVRow) :
  fold_left parseCSVStep lines acc = (acc ++ omap extractRow lines)%list.
Proof.
  revert acc. induction lines as [|line lines IH]; intros acc; simpl.
  - rewrite app_nil_r. reflexivity.
  - rewrite IH. unfold parseCSVStep. destruct (extractRow line); simpl.
    + rewrite <- app_assoc. reflexivity.
    + reflexivity.
Qed.

Lemma parseCSV_omap (content : string) :
  parseCSV content = omap extractRow (drop 5 (JS.split LF content)).
Proof. unfold parseCSV. apply parseCSVStep_fold. Qed.

Lemma trimmedColumn_elim (P : string -> Prop) (columns : list string) (i : nat)
    (v : string) :
  (forall col, col ∈ columns -> P (JS.trim col)) ->
  trimmedColumn columns i = Some v -> P v.
Proof.
  intros HP. unfold trimmedColumn. destruct (columns !! i) as [col|] eqn:E; [|discriminate].
  intros [= <-]. apply HP. eapply list_elem_of_lookup_2, E.
Qed.

Lemma orEmpty_elim (P : string -> Prop) (columns : list string) (i : nat) :
  P "" -> (forall col, col ∈ columns -> P (JS.trim col)) ->
  P (orEmpty (trimmedColumn columns i)).
Proof.
  intros H0 HP. unfold orEmpty.
  destruct (trimmedColumn columns i) as [v|] eqn:E; [|exact H0].
  destruct (JS.truthy v); [|exact H0]. eapply trimmedColumn_elim; eauto.
Qed.

Lemma truthy_nonempty (s : string) : JS.truthy s = true <-> s <> "".
Proof. destruct s; simpl; split; congruence. Qed.

(** What a row taken from a line is like. *)
Lemma extractRow_row (c : ascii) (line : string) (row : CSVRow) :
  lacks c line = true ->
  extractRow line = Some row ->
  valorDate row <> "" /\ concepto row <> "" /\ importe row <> "" /\
  trimmedRow row /\ rowLacks ";" row /\ rowLacks c row.
Proof.
  intros Hline. unfold extractRow.
  destruct (negb (JS.truthy (JS.trim line))); [discriminate|].
  destruct (length (JS.split ";" line) <? 6)%nat; [discriminate|].
  set (columns := JS.split ";" line).
  set (P := fun s => JS.trim s = s /\ lacks ";" s = true /\ lacks c s = true).
  assert (P "") as H0 by (repeat split).
  assert (forall col, col ∈ columns -> P (JS.trim col)) as HP.
  { intros col Hin. repeat split.
    - apply trim_idem.
    - apply lacks_trim.
      apply (proj1 (Forall_forall _ _) (split_lacks_sep ";" line) col Hin).
    - apply lacks_trim.
      apply (proj1 (Forall_forall _ _) (split_lacks ";" c line Hline) col Hin). }
  destruct (trimmedColumn columns 1) as [v|] eqn:Ev; [|discriminate].
  destruct (trimmedColumn columns 3) as [d|] eqn:Ed; [|discriminate].
  destruct (trimmedColumn columns 5) as [a|] eqn:Ea; [|discriminate].
  destruct (JS.truthy v) eqn:Tv; [|discriminate].
  destruct (JS.truthy d) eqn:Td; [|discriminate].
  destruct (JS.truthy a) eqn:Ta; [|discriminate]. simpl.
  destruct (String.eqb a ""); [discriminate|]. intros [= <-].
  pose proof (trimmedColumn_elim P columns 1 v HP Ev) as (? & ? & ?).
  pose proof (trimmedColumn_elim P columns 3 d HP Ed) as (? & ? & ?).
  pose proof (trimmedColumn_elim P columns 5 a HP Ea) as (? & ? & ?).
  pose proof (orEmpty_elim P columns 2 H0 HP) as (? & ? & ?).
  pose proof (orEmpty_elim P columns 4 H0 HP) as (? & ? & ?).
  pose proof (orEmpty_elim P columns 7 H0 HP) as (? & ? & ?).
  apply truthy_nonempty in Tv, Td, Ta.
  unfold trimmedRow, rowLacks. simpl. repeat split; assumption.
Qed.

(** X1. Every row that [parseCSV] returns has a value date, a concept and
    an amount that are not empty; each of its six fields is trimmed, and
    none holds a semicolon or a line feed. *)
Theorem parseCSV_rows (content : string) (row : CSVRow) :
  row ∈ parseCSV content ->
  valorDate row <> "" /\ concepto row <> "" /\ importe row <> "" /\
  trimmedRow row /\ rowLacks ";" row /\ rowLacks LF row.
Proof.
  rewrite parseCSV_omap. intros Hin.
  apply list_elem_of_omap in Hin as (line & Hline & Hrow).
  apply (extractRow_row LF line row); [|exact Hrow].
  apply list_elem_of_lookup_1 in Hline as [i Hi].
  rewrite lookup_drop in Hi.
  apply (proj1 (Forall_forall _ _) (split_lacks_sep LF content)).
  eapply list_elem_of_lookup_2, Hi.
Qed.

Lemma parseCSV_rows_witness :
  valorDate supermartRow <> "" /\ concepto supermartRow <> "" /\
  importe supermartRow <> "" /\
  trimmedRow supermartRow /\ rowLacks ";" supermartRow /\ rowLacks LF supermartRow.
Proof.
  apply (parseCSV_rows statement supermartRow).
  assert (exists rows, parseCSV statement = supermartRow :: rows) as [rows ->]
    by (eexists; vm_compute; reflexivity).
  apply list_elem_of_here.
Defined.

Lemma split_withLines (eol : string) (lines : list string) (rest : string) :
  lacks LF eol = true ->
  Forall (fun line => lacks LF line = true) lines ->
  JS.split LF (withLines eol lines rest)
  = (map (fun line => (line ++ eol)%string) lines ++ JS.split LF rest)%list.
Proof.
  intros Heol. induction 1 as [|line lines Hline _ IH]; [reflexivity|].
  simpl. rewrite <- IH.
  change (line ++ eol ++ String LF (withLines eol lines rest))
    with (line ++ (eol ++ String LF (withLines eol lines rest))).
  rewrite <- (split_app LF (line ++ eol)) by (rewrite lacks_app, Hline, Heol; reflexivity).
  f_equal. clear. induction line as [|c line IH]; [reflexivity|].
  rewrite !append_cons, IH. reflexivity.
Qed.

(** X2. The first five lines of the content are passed over whatever they
    hold: when the content is five lines without line feed in them, each
    closed by the same line end and a line feed, followed by a body, the
    rows are those of the lines of the body. *)
Theorem parseCSV_preamble (eol : string) (headers : list string) (body : string) :
  length headers = 5%nat ->
  lacks LF eol = true ->
  Forall (fun header => lacks LF header = true) headers ->
  parseCSV (withLines eol headers body) = omap extractRow (JS.split LF body).
Proof.
  intros Hlen Heol Hh. rewrite parseCSV_omap, split_withLines by assumption.
  rewrite drop_app_length'; [reflexivity|]. rewrite length_map, Hlen. reflexivity.
Qed.

Lemma parseCSV_preamble_witness :
  parseCSV statement
  = omap extractRow (JS.split LF (withLines (String CR "") statementLines "")).
Proof.
  apply (parseCSV_preamble (String CR "") statementHeader).
  - reflexivity.
  - reflexivity.
  - repeat constructor.
Defined.

Lemma omap_unfold {A B : Type} (f : A -> option B) (x : A) (l : list A) :
  omap f (x :: l) = match f x with Some y => y :: omap f l | None => omap f l end.
Proof. reflexivity. Qed.

Lemma omap_length_le {A B : Type} (f : A -> option B) (l : list A) :
  (length (omap f l) <= length l)%nat.
Proof.
  induction l as [|x l IH]; [reflexivity|]. rewrite omap_unfold.
  destruct (f x); simpl; lia.
Qed.

(** X3. [parseCSV] returns at most as many rows as the content has lines
    beyond the fifth; a content of five lines or fewer, the empty content
    included, gives no row. *)
Theorem parseCSV_length (content : string) :
  (length (parseCSV content) <= length (JS.split LF content) - 5)%nat /\
  ((length (JS.split LF content) <= 5)%nat -> parseCSV content = []).
Proof.
  rewrite parseCSV_omap.
  assert (length (omap extractRow (drop 5 (JS.split LF content)))
          <= length (JS.split LF content) - 5)%nat as Hle.
  { etransitivity; [apply omap_length_le|]. rewrite length_drop. lia. }
  split; [exact Hle|]. intros Hshort.
  destruct (omap extractRow (drop 5 (JS.split LF content))); [reflexivity|].
  simpl in Hle. lia.
Qed.

Lemma trimmedColumn_snoc (pieces : list string) (last : string) (w : ascii) (i : nat) :
  JS.isWhiteSpace w = true ->
  trimmedColumn (pieces ++ [(last ++ String w "")%string]) i
  = trimmedColumn (pieces ++ [last]) i.
Proof.
  intros W. unfold trimmedColumn.
  destruct (Nat.lt_trichotomy i (length pieces)) as [Hlt|[->|Hgt]].
  - rewrite !lookup_app_l by exact Hlt. reflexivity.
  - rewrite !list_lookup_middle by reflexivity. simpl. rewrite trim_snoc by exact W.
    reflexivity.
  - rewrite !lookup_ge_None_2 by (rewrite length_app; simpl; lia). reflexivity.
Qed.

(** White space at the end of a line changes nothing of its row. *)
Lemma extractRow_snoc (line : string) (w : ascii) :
  JS.isWhiteSpace w = true ->
  extractRow (line ++ String w "") = extractRow line.
Proof.
  intros W. unfold extractRow. rewrite trim_snoc by exact W.
  assert (Ascii.eqb w ";" = false) as Hsep.
  { destruct (Ascii.eqb w ";") eqn:E; [|reflexivity].
    apply Ascii.eqb_eq in E. subst w. discriminate. }
  destruct (split_snoc ";" w line Hsep) as (pieces & last & -> & ->).
  rewrite !length_app. simpl. rewrite !trimmedColumn_snoc by exact W. reflexivity.
Qed.

Lemma omap_drop_map {A B : Type} (f : A -> option B) (g : A -> A)
    (n : nat) (l t : list A) :
  (forall x, f (g x) = f x) ->
  omap f (drop n (map g l ++ t)) = omap f (drop n (l ++ t)).
Proof.
  intros Hfg. revert n. induction l as [|x l IH]; intros n; [reflexivity|].
  destruct n as [|n].
  - specialize (IH 0%nat). rewrite !drop_0 in *. simpl map.
    rewrite <- !app_comm_cons, !omap_unfold, Hfg, IH. reflexivity.
  - apply IH.
Qed.

(** X4. A carriage return in front of the line feeds changes nothing: a
    line with a carriage return at its end gives the row of the line
    without it, and a content whose lines are closed by CR LF gives the rows
    of the content with the same lines closed by LF. *)
Theorem parseCSV_line_ends (lines : list string) (rest : string) :
  Forall (fun line => lacks LF line = true) lines ->
  (forall line, extractRow (line ++ String CR "") = extractRow line) /\
  parseCSV (withLines (String CR "") lines rest) = parseCSV (withLines "" lines rest).
Proof.
  intros Hlines.
  assert (forall line, extractRow (line ++ String CR "") = extractRow line) as Hcr
    by (intros line; apply extractRow_snoc; reflexivity).
  split; [exact Hcr|].
  rewrite !parseCSV_omap, !split_withLines by (assumption || reflexivity).
  rewrite (omap_drop_map extractRow (fun line => line ++ String CR "")) by exact Hcr.
  rewrite (omap_drop_map extractRow (fun line => line ++ "")); [reflexivity|].
  intros line. f_equal. clear. induction line as [|c line IH]; [reflexivity|].
  rewrite append_cons, IH. reflexivity.
Qed.

Lemma parseCSV_line_ends_witness :
  parseCSV statement
  = parseCSV (withLines "" (statementHeader ++ statementLines) "").
Proof.
  assert (statement
          = withLines (String CR "") (statementHeader ++ statementLines) "") as ->
    by reflexivity.
  apply (parseCSV_line_ends (statementHeader ++ statementLines) "").
  repeat constructor.
Defined.

(** ** Dates *)

Lemma append_nil_r (s : string) : s ++ "" = s.
Proof.
  induction s as [|c s IH]; [reflexivity|]. rewrite append_cons, IH. reflexivity.
Qed.

Lemma split_lacks_id (sep : ascii) (s : string) :
  lacks sep s = true -> JS.split sep s = [s].
Proof.
  induction s as [|c s IH]; intros H; [reflexivity|].
  simpl in H. apply andb_true_iff in H as [Hc H].
  rewrite split_cons, (IH H). destruct (Ascii.eqb c sep); [discriminate | reflexivity].
Qed.

(** The string is its pieces with the separator between them. *)
Lemma split_inv (sep : ascii) (s piece : string) (pieces : list string) :
  JS.split sep s = piece :: pieces ->
  lacks sep piece = true /\
  ((pieces = [] /\ s = piece) \/
   (exists s', s = piece ++ String sep s' /\ JS.split sep s' = pieces)).
Proof.
  revert piece pieces. induction s as [|c s IH]; intros piece pieces E.
  - injection E as <- <-. split; [reflexivity | left; split; reflexivity].
  - rewrite split_cons in E. destruct (Ascii.eqb c sep) eqn:Ec.
    + injection E as <- <-. split; [reflexivity|]. right. exists s.
      apply Ascii.eqb_eq in Ec as ->. split; reflexivity.
    + destruct (JS.split sep s) as [|p ps] eqn:Es; [destruct (split_nonempty sep s Es)|].
      injection E as <- <-. destruct (IH p ps eq_refl) as [Hp Hs]. split.
      * simpl. rewrite Ec, Hp. reflexivity.
      * destruct Hs as [[-> ->]|(s' & -> & Hs')].
        -- left. split; reflexivity.
        -- right. exists s'. split; [reflexivity | exact Hs'].
Qed.

(** X5. [convertDate] succeeds exactly on the strings that begin with
    three pieces that are not empty, separated by ['/'], and that end there
    or go on with a ['/'] and anything; then it returns the third piece,
    the second and the first, joined by ['-'], the second and the first with
    a ['0'] in front when they are one unit long.  It asks nothing more of
    the pieces, digits or not.  On every other string it throws, with the
    string in the message. *)
Theorem convertDate_pieces (dateStr : string) :
  (forall result,
      convertDate dateStr = Return result <->
      exists day month year tail,
        dateStr = day ++ "/" ++ month ++ "/" ++ year ++ tail /\
        lacks "/" day = true /\ lacks "/" month = true /\ lacks "/" year = true /\
        day <> "" /\ month <> "" /\ year <> "" /\
        (tail = "" \/ exists rest, tail = String "/" rest) /\
        result = year ++ "-" ++ JS.padStart2 month ++ "-" ++ JS.padStart2 day) /\
  (forall message,
      convertDate dateStr = Throw message ->
      message = "Invalid date format: " ++ dateStr).
Proof.
  split.
  - intros result. split.
    + unfold convertDate.
      destruct (JS.split "/" dateStr) as [|day [|month [|year rest]]] eqn:E;
        try discriminate. simpl.
      destruct (JS.truthy day) eqn:Td; [|discriminate].
      destruct (JS.truthy month) eqn:Tm; [|discriminate].
      destruct (JS.truthy year) eqn:Ty; [|discriminate]. simpl. intros [= <-].
      apply truthy_nonempty in Td, Tm, Ty.
      apply split_inv in E as [Hd [[[=] _]|(s1 & -> & E)]].
      apply split_inv in E as [Hm [[[=] _]|(s2 & -> & E)]].
      apply split_inv in E as [Hy [[-> ->]|(s3 & -> & E)]].
      * exists day, month, year, "". rewrite append_nil_r.
        repeat split; try assumption. left. reflexivity.
      * exists day, month, year, (String "/" s3).
        repeat split; try assumption. right. eauto.
    + intros (day & month & year & tail & -> & Hd & Hm & Hy & Nd & Nm & Ny & Ht & ->).
      unfold convertDate.
      change (day ++ "/" ++ month ++ "/" ++ year ++ tail)
        with (day ++ String "/" (month ++ String "/" (year ++ tail))).
      rewrite (split_app "/" day) by exact Hd.
      rewrite (split_app "/" month) by exact Hm.
      assert (exists rest, JS.split "/" (year ++ tail) = year :: rest) as [rest ->].
      { destruct Ht as [->|[r ->]].
        - exists []. rewrite append_nil_r. apply split_lacks_id, Hy.
        - exists (JS.split "/" r). apply split_app, Hy. }
      simpl. apply truthy_nonempty in Nd, Nm, Ny. rewrite Nd, Nm, Ny. reflexivity.
  - intros message. unfold convertDate.
    destruct (JS.split "/" dateStr !! 0%nat), (JS.split "/" dateStr !! 1%nat),
             (JS.split "/" dateStr !! 2%nat); try (intros [= <-]; reflexivity).
    destruct (_ || _); [intros [= <-]; reflexivity | discriminate].
Qed.








(** ** Amounts and their sign *)

(** The number of a decimal and the number of its opposite. *)
Lemma decimalToNumber_sign (M E : Z) :
  JS.decimalToNumber true M E = SFopp (JS.decimalToNumber false M E) /\
  (JS.isNaN (JS.decimalToNumber false M E) = false ->
   nonNegative (JS.decimalToNumber false M E)).
Proof.
  assert (forall mx ex lx,
    binary_round_aux JS.prec JS.emax true mx ex lx
    = SFopp (binary_round_aux JS.prec JS.emax false mx ex lx) /\
    (JS.isNaN (binary_round_aux JS.prec JS.emax false mx ex lx) = false ->
     nonNegative (binary_round_aux JS.prec JS.emax false mx ex lx))) as Haux.
  { intros mx ex lx. unfold binary_round_aux.
    destruct (shr_fexp JS.prec JS.emax mx ex lx) as [mrs' e'].
    destruct (shr_fexp JS.prec JS.emax _ e' loc_Exact) as [mrs'' e''].
    destruct (shr_m mrs''); [| |split; [reflexivity | discriminate]].
    - split; reflexivity.
    - destruct (e'' <=? JS.emax - JS.prec)%Z; split; reflexivity. }
  unfold JS.decimalToNumber. destruct M as [|m|m].
  - split; reflexivity.
  - destruct (0 <=? E)%Z.
    + unfold binary_round.
      destruct (shl_align (m * Z.to_pos (10 ^ E)) 0 _) as [mz ez]. apply Haux.
    + unfold SFdiv.
      destruct (SFdiv_core_binary JS.prec JS.emax (Z.pos m) 0
                  (Z.pos (Z.to_pos (10 ^ (- E)))) 0) as [[mz ez] lz].
      apply Haux.
  - split; [reflexivity | discriminate].
Qed.

Lemma isDigit_plain (c : ascii) :
  JS.isDigit c = true ->
  JS.isWhiteSpace c = false /\ Ascii.eqb c "," = false /\
  forall r, JS.takeSign (String c r) = (false, String c r).
Proof.
  destruct c as [[] [] [] [] [] [] [] []]; try discriminate;
    intros _; repeat split; reflexivity.
Qed.

(** A minus sign in front of a string that begins with a digit gives the
    opposite number, and the number without it is NaN or not negative. *)
Lemma parseFloat_minus (c : ascii) (r : string) :
  JS.isDigit c = true ->
  JS.parseFloat (String "-" (String c r)) = SFopp (JS.parseFloat (String c r)) /\
  (JS.isNaN (JS.parseFloat (String c r)) = false ->
   nonNegative (JS.parseFloat (String c r))).
Proof.
  intros Hc. destruct (isDigit_plain c Hc) as (Hw & _ & Hs).
  unfold JS.parseFloat.
  change (JS.trimStart (String "-" (String c r))) with (String "-" (String c r)).
  change (JS.takeSign (String "-" (String c r))) with (true, String c r).
  assert (JS.trimStart (String c r) = String c r) as -> by (simpl; rewrite Hw; reflexivity).
  rewrite Hs.
  destruct (String.prefix "Infinity" (String c r)); [split; reflexivity|].
  destruct (JS.takeDigits (String c r)) as [ip s3].
  destruct (match s3 with
            | String "." r0 => JS.takeDigits r0
            | _ => ([], s3)
            end) as [fp s4].
  destruct ip as [|i ip]; [destruct fp as [|f fp]; [split; [reflexivity|discriminate]|]|];
    apply decimalToNumber_sign.
Qed.

Lemma parseAmount_minus (c : ascii) (r : string) (a : JS.number) :
  JS.isDigit c = true ->
  parseAmount (String c r) = Return a ->
  parseAmount (String "-" (String c r)) = Return (SFopp a) /\ nonNegative a.
Proof.
  intros Hc. destruct (isDigit_plain c Hc) as (_ & Hcomma & _).
  unfold parseAmount.
  change (JS.replace "," "." (String "-" (String c r)))
    with (String "-" (JS.replace "," "." (String c r))).
  assert (JS.replace "," "." (String c r) = String c (JS.replace "," "." r)) as ->
    by (simpl; rewrite Hcomma; reflexivity).
  destruct (parseFloat_minus c (JS.replace "," "." r) Hc) as [-> Hnn].
  destruct (JS.isNaN (JS.parseFloat (String c (JS.replace "," "." r)))) eqn:N;
    [discriminate|].
  intros [= <-]. split; [|apply Hnn; reflexivity].
  destruct (JS.parseFloat (String c (JS.replace "," "." r))); try discriminate;
    reflexivity.
Qed.

(** X7. The id does not tell the sign of the amount.  For a row whose
    amount begins with a digit and from which a transaction is built, the
    row with a minus sign in front of the amount gives a transaction with
    the same id, date, description and amount; the first is an income, and
    the second is an expense unless the amount is zero. *)
Theorem id_ignores_sign (row : CSVRow) (c : ascii) (rest : string)
    (t : ParsedTransaction) :
  JS.isDigit c = true ->
  importe row = String c rest ->
  buildTransaction row = Return t ->
  exists t',
    buildTransaction (negated row) = Return t' /\
    Tx.id t' = Tx.id t /\ Tx.date t' = Tx.date t /\
    Tx.description t' = Tx.description t /\ Tx.amount t' = Tx.amount t /\
    Tx.type t = income /\
    (Tx.type t' = expense <-> ~ isZero (Tx.amount t)).
Proof.
  intros Hc Himp. unfold buildTransaction, negated. simpl. rewrite Himp.
  destruct (convertDate (valorDate row)) as [date|]; simpl; [|discriminate].
  destruct (if JS.truthy (fecha row) then convertDate (fecha row) else Return date)
    as [fecha'|]; simpl; [|discriminate].
  destruct (parseAmount (String c rest)) as [a|] eqn:Ea; simpl; [|discriminate].
  destruct (parseAmount_minus c rest a Hc Ea) as [-> Hnn]. simpl.
  intros [= <-]. eexists. split; [reflexivity|]. simpl.
  assert (JS.Math_abs (SFopp a) = JS.Math_abs a) as -> by (destruct a; reflexivity).
  change (JS.ofNat 0) with (S754_zero false).
  destruct a as [s|s| |s m e]; simpl in Hnn; try contradiction; subst s;
    repeat split; try reflexivity; try discriminate.
  - intros H. exfalso. apply H. exists false. reflexivity.
  - intros _ [s0 [=]].
  - intros _ [s0 [=]].
Qed.

Lemma id_ignores_sign_witness :
  exists t t',
    buildTransaction refundRow = Return t /\
    buildTransaction (negated refundRow) = Return t' /\
    Tx.id t' = Tx.id t /\ Tx.type t = income /\ Tx.type t' = expense.
Proof.
  destruct (buildTransaction refundRow) as [t|] eqn:E; [|vm_compute in E; discriminate].
  destruct (id_ignores_sign refundRow "1" "0,00" t eq_refl eq_refl E)
    as (t' & E' & Hid & _ & _ & _ & Hinc & Hexp).
  exists t, t'. repeat split; try assumption. apply Hexp.
  assert (Tx.amount t = JS.ofNat 10) as ->
    by (vm_compute in E; injection E as <-; reflexivity).
  intros [s [=]].
Defined.

(** ** The shape of built transactions *)

Lemma length_append (s t : string) :
  String.length (s ++ t) = (String.length s + String.length t)%nat.
Proof.
  induction s as [|c s IH]; [reflexivity|]. rewrite append_cons. simpl.
  rewrite IH. reflexivity.
Qed.

Lemma length_substring0 (n : nat) (s : string) :
  String.length (JS.substring0 n s) = Nat.min n (String.length s).
Proof.
  unfold JS.substring0. revert s. induction n as [|n IH]; intros [|c s]; simpl;
    try reflexivity.
  rewrite IH. reflexivity.
Qed.

Lemma round_length (st : list Z) (kw : Z * Z) :
  length st = 8%nat -> length (SHA256.round st kw) = 8%nat.
Proof.
  intros H. do 9 (destruct st as [|? st]; try discriminate). reflexivity.
Qed.

Lemma compress_length (st block : list Z) :
  length st = 8%nat -> length (SHA256.compress st block) = 8%nat.
Proof.
  intros H. unfold SHA256.compress. rewrite length_zip_with.
  assert (forall kws st', length st' = 8%nat ->
            length (fold_left SHA256.round kws st') = 8%nat) as Hfold.
  { induction kws as [|kw kws IH]; intros st' H'; [exact H'|].
    simpl. apply IH, round_length, H'. }
  rewrite (Hfold _ st H), H. reflexivity.
Qed.

Lemma digest_length (msg : list Z) : length (SHA256.digest msg) = 8%nat.
Proof.
  unfold SHA256.digest.
  generalize (length (SHA256.words (SHA256.pad msg)) / 16)%nat as n.
  generalize (SHA256.words (SHA256.pad msg)) as ws.
  assert (length SHA256.H0 = 8%nat) as H by reflexivity. revert H.
  generalize SHA256.H0 as st.
  intros st H ws n. revert ws st H. induction n as [|n IH]; intros ws st H; [exact H|].
  simpl. apply IH, compress_length, H.
Qed.

(** The digest in hexadecimal has 64 digits. *)
Lemma hex_length (s : string) : String.length (SHA256.hex s) = 64%nat.
Proof.
  unfold SHA256.hex.
  assert (forall ws : list Z,
            String.length
              (fold_right (fun w acc => (SHA256.hexWord w ++ acc)%string) EmptyString ws)
            = (8 * length ws)%nat) as H.
  { induction ws as [|w ws IH]; [reflexivity|].
    simpl fold_right. rewrite length_append, IH. simpl length.
    change (String.length (SHA256.hexWord w)) with 8%nat. lia. }
  rewrite H, digest_length. reflexivity.
Qed.

(** Every id is ["tx_"] and twelve more units. *)
Lemma generateId_shape (v f d m : string) (a : JS.number) (b : string) :
  String.length (generateId v f d m a b) = 15%nat /\
  String.prefix "tx_" (generateId v f d m a b) = true.
Proof.
  unfold generateId. split.
  - rewrite length_append, length_substring0, hex_length. reflexivity.
  - apply prefix_app. eauto.
Qed.

(** X8. Every transaction that [transformToTransactions] returns comes
    from one of the rows: its description is the concept of the row and its
    date the converted value date.  Its category is ['pendiente'], its
    account ['checking'], it has no override, its amount is a number that is
    its own absolute value, and its id is ["tx_"] followed by twelve units. *)
Theorem transform_fields (csvRows : list CSVRow) (t : ParsedTransaction) :
  t ∈ transformToTransactions csvRows ->
  (exists row, row ∈ csvRows /\
               convertDate (valorDate row) = Return (Tx.date t) /\
               Tx.description t = concepto row) /\
  Tx.category t = "pendiente" /\ Tx.account t = "checking" /\
  Tx.categoryOverride t = None /\ Tx.descriptionOverride t = None /\
  JS.isNaN (Tx.amount t) = false /\ JS.Math_abs (Tx.amount t) = Tx.amount t /\
  String.length (Tx.id t) = 15%nat /\ String.prefix "tx_" (Tx.id t) = true.
Proof.
  unfold transformToTransactions, transformRun.
  destruct (transformStep_fold csvRows {| transactions := []; errorLog := [] |})
    as [-> _]. simpl.
  intros Hin. apply list_elem_of_omap in Hin as (row & Hrow & Hb).
  unfold built, buildTransaction in Hb.
  destruct (convertDate (valorDate row)) as [date|] eqn:Ed; simpl in Hb; [|discriminate].
  destruct (if JS.truthy (fecha row) then convertDate (fecha row) else Return date);
    simpl in Hb; [|discriminate].
  unfold parseAmount in Hb.
  destruct (JS.isNaN (JS.parseFloat (JS.replace "," "." (importe row)))) eqn:N;
    simpl in Hb; [discriminate|].
  injection Hb as <-. simpl.
  split; [exists row; repeat split; assumption|].
  repeat split; try apply generateId_shape.
  - destruct (JS.parseFloat _); try discriminate; reflexivity.
  - destruct (JS.parseFloat _); reflexivity.
Qed.

Lemma transform_fields_witness :
  exists t,
    transformToTransactions (parseCSV statement) !! 0%nat = Some t /\
    Tx.category t = "pendiente" /\ String.length (Tx.id t) = 15%nat.
Proof.
  destruct (transformToTransactions (parseCSV statement)) as [|t l] eqn:E;
    [vm_compute in E; discriminate|].
  exists t. split; [reflexivity|].
  destruct (transform_fields (parseCSV statement) t) as (_ & Hc & _ & _ & _ & _ & _ & Hl & _).
  - rewrite E. apply list_elem_of_here.
  - split; assumption.
Defined.

(** ** More on the categorization engine *)

Lemma containsAny_lower (d d' : string) (keywords : list string) :
  JS.toLowerCase d = JS.toLowerCase d' ->
  containsAny d keywords = containsAny d' keywords.
Proof. intros H. unfold containsAny. rewrite H. reflexivity. Qed.

(** The category depends on the lower-cased description and on the type
    only. *)
Lemma categorize_ext (t t' : ParsedTransaction) :
  JS.toLowerCase (Tx.description t) = JS.toLowerCase (Tx.description t') ->
  Tx.type t = Tx.type t' ->
  categorizeTransaction t = categorizeTransaction t'.
Proof.
  intros Hd Ht.
  pose proof (fun kws => containsAny_lower _ _ kws Hd) as Hc.
  unfold categorizeTransaction, getCategorizationRules.
  cbn [categorizeWith match_ category]. rewrite Ht, !Hc. reflexivity.
Qed.

Lemma categorize_with_category (t : ParsedTransaction) (c : string) :
  categorizeTransaction (Tx.with_category t c) = categorizeTransaction t.
Proof. apply categorize_ext; reflexivity. Qed.

Lemma categorize_in_rules (t : ParsedTransaction) :
  categorizeTransaction t = "pendiente" \/
  exists r, r ∈ getCategorizationRules /\ categorizeTransaction t = category r.
Proof.
  unfold categorizeTransaction.
  destruct (categorizeWith_first getCategorizationRules t)
    as [(k & r & Hk & _ & _ & Hc)|[_ Hc]]; [right | left; exact Hc].
  exists r. split; [eapply list_elem_of_lookup_2, Hk | exact Hc].
Qed.

Lemma categorize_catalog (t : ParsedTransaction) :
  categorizeTransaction t ∈ categoryIds /\ categorizeTransaction t <> "other".
Proof.
  assert (Forall (fun r => category r ∈ categoryIds /\ category r <> "other")
                 getCategorizationRules) as Hall.
  { unfold getCategorizationRules, categoryIds. repeat constructor; simpl;
      try discriminate; set_solver. }
  destruct (categorize_in_rules t) as [->|(r & Hr & ->)].
  - split; [unfold categoryIds; set_solver | discriminate].
  - apply (proj1 (Forall_forall _ _) Hall r Hr).
Qed.

Lemma applyRulesTo_compose (first second : bool) (t : ParsedTransaction) :
  applyRulesTo second (applyRulesTo first t) = applyRulesTo (first && second) t.
Proof.
  unfold applyRulesTo.
  destruct (hasOverride (Tx.categoryOverride t)) eqn:Ho.
  - rewrite Ho. reflexivity.
  - destruct (String.eqb (Tx.category t) "pendiente") eqn:Ep;
      destruct first, second; simpl; rewrite ?Ho, ?Ep; simpl;
      rewrite ?categorize_with_category; try reflexivity;
      destruct (String.eqb (categorizeTransaction t) "pendiente"); reflexivity.
Qed.

(** X9. Two runs of [applyRulesToTransactions], one after the other, do
    what one run does whose flag is the conjunction of the two flags; so a
    run repeated in the same mode changes nothing more, and a run in the
    mode that recomputes makes any run before it pointless. *)
Theorem applyRules_compose (transactions : list ParsedTransaction)
    (first second : bool) :
  applyRulesToTransactions (applyRulesToTransactions transactions first) second
  = applyRulesToTransactions transactions (first && second).
Proof.
  unfold applyRulesToTransactions. rewrite map_map. apply map_ext. intros t.
  apply applyRulesTo_compose.
Qed.

(** X10. A run of [applyRulesToTransactions] leaves a transaction as it is
    or gives it the category that [categorizeTransaction] computes, and that
    category is an id of the category list, never ['other']. *)
Theorem applyRules_catalog (transactions : list ParsedTransaction)
    (preserveManualCategories : bool) (i : nat) (t : ParsedTransaction) :
  transactions !! i = Some t ->
  exists t',
    applyRulesToTransactions transactions preserveManualCategories !! i = Some t' /\
    (t' = t \/
     (Tx.category t' = categorizeTransaction t /\
      Tx.category t' ∈ categoryIds /\ Tx.category t' <> "other")).
Proof.
  intros Hi. exists (applyRulesTo preserveManualCategories t). split.
  - unfold applyRulesToTransactions.
    change (map (applyRulesTo preserveManualCategories) transactions)
      with (applyRulesTo preserveManualCategories <$> transactions).
    rewrite list_lookup_fmap, Hi. reflexivity.
  - unfold applyRulesTo. destruct (hasOverride _); [left; reflexivity|].
    destruct (_ && _); [left; reflexivity|]. right. simpl.
    split; [reflexivity | apply categorize_catalog].
Qed.

Lemma applyRules_catalog_witness :
  exists t',
    applyRulesToTransactions [rentAtTheMarket] false !! 0%nat = Some t' /\
    Tx.category t' = "rent".
Proof.
  destruct (applyRules_catalog [rentAtTheMarket] false 0 rentAtTheMarket eq_refl)
    as (t' & Ht' & Hcases).
  exists t'. split; [exact Ht'|].
  destruct Hcases as [->|(-> & _)]; [|vm_compute; reflexivity].
  vm_compute in Ht'. discriminate.
Defined.

(** X11. The category that [categorizeTransaction] computes depends on the
    type of the transaction and on its description in lower case, and on
    nothing else: two transactions that agree on these get the same
    category, whatever their other fields and whatever the case of the
    letters of their descriptions. *)
Theorem categorize_case_insensitive (t t' : ParsedTransaction) :
  JS.toLowerCase (Tx.description t) = JS.toLowerCase (Tx.description t') ->
  Tx.type t = Tx.type t' ->
  categorizeTransaction t = categorizeTransaction t'.
Proof. apply categorize_ext. Qed.

Lemma categorize_case_insensitive_witness :
  categorizeTransaction rentAtTheMarket = categorizeTransaction metroRent.
Proof.
  apply (categorize_case_insensitive rentAtTheMarket metroRent);
    vm_compute; reflexivity.
Defined.

(** ** Merge and categorization *)

Lemma idsOf_map (g : ParsedTransaction -> ParsedTransaction) (l : list ParsedTransaction) :
  (forall t, Tx.id (g t) = Tx.id t) -> idsOf (map g l) = idsOf l.
Proof.
  intros Hg. unfold idsOf. f_equal.
  induction l as [|t l IH]; [reflexivity|].
  change (Tx.id (g t) :: (Tx.id <$> map g l) = Tx.id t :: (Tx.id <$> l)).
  rewrite Hg, IH. reflexivity.
Qed.

Lemma newRecords_map (g : ParsedTransaction -> ParsedTransaction) (seen : gset string)
    (l : list ParsedTransaction) :
  (forall t, Tx.id (g t) = Tx.id t) ->
  newRecords seen (map g l) = map g (newRecords seen l).
Proof.
  intros Hg. revert seen. induction l as [|t l IH]; intros seen; simpl; [reflexivity|].
  rewrite Hg. destruct (decide (Tx.id t ∈ seen)); simpl; rewrite IH; reflexivity.
Qed.

Lemma sortInsert_map {A : Type} (comparefn : A -> A -> option Z) (g : A -> A)
    (x : A) (l : list A) :
  (forall a b, comparefn (g a) (g b) = comparefn a b) ->
  JS.sortInsert comparefn (g x) (map g l) = map g (JS.sortInsert comparefn x l).
Proof.
  intros Hg. induction l as [|y l IH]; simpl; [reflexivity|].
  unfold JS.SortCompare. rewrite Hg.
  destruct (0 <? _)%Z; simpl; [rewrite IH|]; reflexivity.
Qed.

Lemma sort_map {A : Type} (comparefn : A -> A -> option Z) (g : A -> A) (l : list A) :
  (forall a b, comparefn (g a) (g b) = comparefn a b) ->
  JS.sort comparefn (map g l) = map g (JS.sort comparefn l).
Proof.
  intros Hg. induction l as [|x l IH]; [reflexivity|].
  unfold JS.sort in *. simpl. rewrite IH. apply sortInsert_map, Hg.
Qed.

Lemma merge_unfold (getTime : string -> option Z)
    (existing newTransactions : list ParsedTransaction) :
  mergeTransactions getTime existing newTransactions
  = JS.sort (compareByDate getTime)
            (existing ++ newRecords (idsOf existing) newTransactions)%list.
Proof.
  unfold mergeTransactions.
  destruct (mergeLoop_spec existing newTransactions) as (-> & _ & _). reflexivity.
Qed.

Lemma merge_map (getTime : string -> option Z) (g : ParsedTransaction -> ParsedTransaction)
    (existing newTransactions : list ParsedTransaction) :
  keepsIdAndDate g ->
  mergeTransactions getTime (map g existing) (map g newTransactions)
  = map g (mergeTransactions getTime existing newTransactions).
Proof.
  intros Hg. rewrite !merge_unfold.
  rewrite (idsOf_map g) by apply Hg. rewrite (newRecords_map g) by apply Hg.
  rewrite <- map_app. apply sort_map. intros a b. unfold compareByDate.
  rewrite (proj2 (Hg a)), (proj2 (Hg b)). reflexivity.
Qed.

Lemma applyRulesTo_keeps (flag : bool) : keepsIdAndDate (applyRulesTo flag).
Proof.
  intros t. unfold applyRulesTo. destruct (hasOverride _); [split; reflexivity|].
  destruct (_ && _); split; reflexivity.
Qed.

Lemma plainObject_keeps : keepsIdAndDate plainObject.
Proof. intros t. split; reflexivity. Qed.

Lemma merge_precategorized (getTime : string -> option Z)
    (existing newTransactions : list ParsedTransaction) :
  map (applyRulesTo false)
      (mergeTransactions getTime existing (map (applyRulesTo false) newTransactions))
  = map (applyRulesTo false) (mergeTransactions getTime existing newTransactions).
Proof.
  rewrite <- !(merge_map getTime (applyRulesTo false)) by apply applyRulesTo_keeps.
  rewrite map_map. f_equal. apply map_ext. intros t. apply applyRulesTo_compose.
Qed.

(** X12. [mergeTransactions] commutes with [applyRulesToTransactions]:
    merging two categorized lists gives the categorized merge.  So in [main]
    the categorization of the new transactions before the merge has no
    effect on what the categorization after the merge returns. *)
Theorem merge_categorize_commute (getTime : string -> option Z)
    (existing newTransactions : list ParsedTransaction) (flag : bool) :
  mergeTransactions getTime (applyRulesToTransactions existing flag)
                            (applyRulesToTransactions newTransactions flag)
  = applyRulesToTransactions (mergeTransactions getTime existing newTransactions) flag /\
  applyRulesToTransactions
    (mergeTransactions getTime existing (applyRulesToTransactions newTransactions false))
    false
  = applyRulesToTransactions (mergeTransactions getTime existing newTransactions) false.
Proof.
  unfold applyRulesToTransactions. split.
  - apply merge_map, applyRulesTo_keeps.
  - apply merge_precategorized.
Qed.

(** ** The import run *)

Lemma newRecords_app (seen : gset string) (l1 l2 : list ParsedTransaction) :
  newRecords seen (l1 ++ l2)
  = (newRecords seen l1 ++ newRecords (idsOf (newRecords seen l1) ∪ seen) l2)%list.
Proof.
  revert seen. induction l1 as [|t l1 IH]; intros seen; simpl.
  - replace (idsOf [] ∪ seen) with seen by (unfold idsOf; simpl; set_solver).
    reflexivity.
  - destruct (decide (Tx.id t ∈ seen)); [apply IH|].
    rewrite IH. simpl. f_equal. f_equal.
    replace (idsOf (t :: newRecords ({[Tx.id t]} ∪ seen) l1) ∪ seen)
      with (idsOf (newRecords ({[Tx.id t]} ∪ seen) l1) ∪ ({[Tx.id t]} ∪ seen));
      [reflexivity|].
    unfold idsOf. simpl. set_solver.
Qed.

Lemma newRecords_twice (seen' seen : gset string) (l : list ParsedTransaction) :
  seen' ⊆ seen -> newRecords seen (newRecords seen' l) = newRecords seen l.
Proof.
  revert seen' seen. induction l as [|t l IH]; intros seen' seen Hsub; simpl; [reflexivity|].
  destruct (decide (Tx.id t ∈ seen')) as [Hin'|Hout'].
  - rewrite decide_True by set_solver. apply IH, Hsub.
  - simpl. destruct (decide (Tx.id t ∈ seen)) as [Hin|Hout].
    + apply IH. set_solver.
    + f_equal. apply IH. set_solver.
Qed.

Lemma newRecords_covers (seen : gset string) (l : list ParsedTransaction)
    (t : ParsedTransaction) :
  t ∈ l -> Tx.id t ∈ idsOf (newRecords seen l) ∪ seen.
Proof.
  revert seen. induction l as [|u l IH]; intros seen Ht; [inversion Ht|].
  simpl. apply elem_of_cons in Ht as [->|Ht].
  - destruct (decide (Tx.id u ∈ seen)); [set_solver|]. unfold idsOf. simpl. set_solver.
  - destruct (decide (Tx.id u ∈ seen)); [apply IH, Ht|].
    specialize (IH ({[ Tx.id u ]} ∪ seen) Ht). unfold idsOf in *. simpl. set_solver.
Qed.

Lemma collectStep_fold (l : list ParsedTransaction) (st : BatchState) :
  fold_left collectStep l st
  = {| seenIds := idsOf (newRecords (seenIds st) l) ∪ seenIds st;
       allCSVTransactions := (allCSVTransactions st ++ newRecords (seenIds st) l)%list |}.
Proof.
  revert st. induction l as [|t l IH]; intros st; simpl.
  - destruct st as [ids m]; simpl. f_equal.
    + unfold idsOf. simpl. set_solver.
    + rewrite app_nil_r. reflexivity.
  - rewrite IH. unfold collectStep. destruct (decide (Tx.id t ∈ seenIds st)); simpl.
    + reflexivity.
    + f_equal.
      * unfold idsOf. simpl. set_solver.
      * rewrite <- app_assoc. reflexivity.
Qed.

Lemma collectFile_fold (csvFiles : list string) (st : BatchState) :
  fold_left collectFile csvFiles st
  = {| seenIds := idsOf (newRecords (seenIds st) (builtFrom csvFiles)) ∪ seenIds st;
       allCSVTransactions :=
         (allCSVTransactions st ++ newRecords (seenIds st) (builtFrom csvFiles))%list |}.
Proof.
  revert st. induction csvFiles as [|content csvFiles IH]; intros st.
  - destruct st as [ids m]; simpl. f_equal.
    + unfold idsOf. simpl. set_solver.
    + rewrite app_nil_r. reflexivity.
  - change (fold_left collectFile (content :: csvFiles) st)
      with (fold_left collectFile csvFiles (collectFile st content)).
    rewrite IH. unfold collectFile. rewrite collectStep_fold. simpl.
    change (builtFrom (content :: csvFiles))
      with (transformToTransactions (parseCSV content) ++ builtFrom csvFiles)%list.
    rewrite newRecords_app. f_equal.
    + unfold idsOf. rewrite fmap_app, list_to_set_app_L. set_solver.
    + rewrite <- app_assoc. reflexivity.
Qed.

(** The transactions that a run hands to [generateJSON]. *)
Lemma import_unfold (getTime : string -> option Z)
    (existingTransactions : list ParsedTransaction) (csvFiles : list string)
    (result : ImportResult) :
  importTransactions getTime existingTransactions csvFiles = Some result ->
  csvFiles <> [] /\
  categorizedTransactions result
  = map (applyRulesTo false)
        (JS.sort (compareByDate getTime)
           (existingTransactions
            ++ newRecords (idsOf existingTransactions) (builtFrom csvFiles))%list) /\
  duplicateIds result
  = (length (categorizedTransactions result)
     - size (idsOf (categorizedTransactions result)))%nat.
Proof.
  unfold importTransactions.
  pose proof (collectFile_fold csvFiles {| seenIds := ∅; allCSVTransactions := [] |})
    as Hbatch.
  destruct csvFiles as [|content csvFiles]; [discriminate|].
  cbn [fold_left] in Hbatch.
  intros [= <-]. split; [discriminate|]. cbn [categorizedTransactions duplicateIds].
  split; [|reflexivity].
  rewrite Hbatch. cbn [allCSVTransactions seenIds app].
  unfold applyRulesToTransactions.
  rewrite merge_precategorized, merge_unfold, newRecords_twice by set_solver.
  reflexivity.
Qed.

(** X13. A run of the import with no statement file produces nothing.
    With at least one file, the transactions it hands to [generateJSON] are
    those of one merge of the existing transactions with all the
    transactions built from the files, in the order of the files,
    categorized afterwards: collecting the files with [seenIds] and
    categorizing the new transactions before the merge change nothing. *)
Theorem import_as_merge (getTime : string -> option Z)
    (existingTransactions : list ParsedTransaction) (csvFiles : list string) :
  match importTransactions getTime existingTransactions csvFiles with
  | None => csvFiles = []
  | Some result =>
      csvFiles <> [] /\
      categorizedTransactions result
      = applyRulesToTransactions
          (mergeTransactions getTime existingTransactions (builtFrom csvFiles)) false
  end.
Proof.
  destruct (importTransactions _ _ _) as [result|] eqn:E.
  - apply import_unfold in E as (Hne & -> & _). split; [exact Hne|].
    rewrite merge_unfold. reflexivity.
  - destruct csvFiles; [reflexivity | discriminate].
Qed.

Lemma ids_map (g : ParsedTransaction -> ParsedTransaction) (l : list ParsedTransaction) :
  (forall t, Tx.id (g t) = Tx.id t) -> Tx.id <$> map g l = Tx.id <$> l.
Proof.
  intros Hg. induction l as [|t l IH]; [reflexivity|].
  change (Tx.id (g t) :: (Tx.id <$> map g l) = Tx.id t :: (Tx.id <$> l)).
  rewrite Hg, IH. reflexivity.
Qed.

Lemma import_ids_Permutation (getTime : string -> option Z)
    (existingTransactions : list ParsedTransaction) (csvFiles : list string)
    (result : ImportResult) :
  importTransactions getTime existingTransactions csvFiles = Some result ->
  Tx.id <$> categorizedTransactions result
  ≡ₚ ((Tx.id <$> existingTransactions)
      ++ (Tx.id <$> newRecords (idsOf existingTransactions) (builtFrom csvFiles)))%list.
Proof.
  intros H. apply import_unfold in H as (_ & -> & _).
  rewrite ids_map by (intros t; apply applyRulesTo_keeps).
  rewrite sort_Permutation, fmap_app. reflexivity.
Qed.

Lemma newRecords_ids (seen : gset string) (l : list ParsedTransaction) :
  idsOf (newRecords seen l) ∪ seen = idsOf l ∪ seen.
Proof.
  apply set_eq. intros x. split.
  - intros [Hx|Hx]%elem_of_union; [|set_solver].
    apply elem_of_union. left. unfold idsOf in *.
    apply elem_of_list_to_set in Hx. apply elem_of_list_to_set.
    apply list_elem_of_fmap in Hx as (t & -> & Ht). apply list_elem_of_fmap.
    exists t. split; [reflexivity|].
    eapply elem_of_sublist; [exact Ht | apply newRecords_sublist].
  - intros [Hx|Hx]%elem_of_union; [|set_solver].
    unfold idsOf in Hx. apply elem_of_list_to_set in Hx.
    apply list_elem_of_fmap in Hx as (t & -> & Ht). apply newRecords_covers, Ht.
Qed.

Lemma import_idsOf (getTime : string -> option Z)
    (existingTransactions : list ParsedTransaction) (csvFiles : list string)
    (result : ImportResult) :
  importTransactions getTime existingTransactions csvFiles = Some result ->
  idsOf (categorizedTransactions result)
  = idsOf existingTransactions ∪ idsOf (builtFrom csvFiles).
Proof.
  intros H. apply import_ids_Permutation in H as Hperm.
  unfold idsOf at 1. rewrite Hperm, list_to_set_app_L.
  change (idsOf existingTransactions
          ∪ idsOf (newRecords (idsOf existingTransactions) (builtFrom csvFiles))
          = idsOf existingTransactions ∪ idsOf (builtFrom csvFiles)).
  rewrite (comm_L (∪) (idsOf existingTransactions)), newRecords_ids. set_solver.
Qed.

(** X14. After a run of the import the ids are those of the existing
    transactions and of the transactions built from the files; there is one
    transaction per existing transaction and one per new id; the number of
    duplicate ids that [main] warns about is the number that the existing
    transactions had among themselves, so when their ids are pairwise
    different, so are the ids of the result and the number is 0. *)
Theorem import_ids (getTime : string -> option Z)
    (existingTransactions : list ParsedTransaction) (csvFiles : list string)
    (result : ImportResult) :
  importTransactions getTime existingTransactions csvFiles = Some result ->
  idsOf (categorizedTransactions result)
    = idsOf existingTransactions ∪ idsOf (builtFrom csvFiles) /\
  length (categorizedTransactions result)
    = (length existingTransactions
       + size (idsOf (builtFrom csvFiles) ∖ idsOf existingTransactions))%nat /\
  duplicateIds result
    = (length existingTransactions - size (idsOf existingTransactions))%nat /\
  (NoDup (Tx.id <$> existingTransactions) ->
   NoDup (Tx.id <$> categorizedTransactions result) /\ duplicateIds result = 0%nat).
Proof.
  intros H. pose proof (import_ids_Permutation _ _ _ _ H) as Hperm.
  pose proof (import_unfold _ _ _ _ H) as (_ & _ & Hdup).
  set (added := newRecords (idsOf existingTransactions) (builtFrom csvFiles)) in *.
  assert (idsOf (categorizedTransactions result) = idsOf existingTransactions ∪ idsOf added)
    as Hids.
  { unfold idsOf. rewrite Hperm, list_to_set_app_L. reflexivity. }
  assert (length (categorizedTransactions result)
          = (length existingTransactions + length added)%nat) as Hlen.
  { rewrite <- (length_fmap Tx.id), Hperm, length_app, !length_fmap. reflexivity. }
  assert (size (idsOf (categorizedTransactions result))
          = (size (idsOf existingTransactions) + length added)%nat) as Hsize.
  { rewrite Hids. rewrite (size_union (C := gset string)).
    - f_equal. unfold idsOf. rewrite size_list_to_set, length_fmap; [reflexivity|].
      apply newRecords_NoDup.
    - intros x Hx Hx'. unfold idsOf in Hx'. apply elem_of_list_to_set in Hx'.
      apply list_elem_of_fmap in Hx' as (t & -> & Ht).
      apply newRecords_not_seen in Ht. contradiction. }
  split; [|split; [|split]].
  - apply (import_idsOf _ _ _ _ H).
  - rewrite Hlen. unfold added. rewrite newRecords_length. reflexivity.
  - rewrite Hdup, Hlen, Hsize. lia.
  - intros Hnd. split.
    + rewrite Hperm. apply NoDup_app. split; [exact Hnd|]. split; [|apply newRecords_NoDup].
      intros x Hx Hx'. apply list_elem_of_fmap in Hx' as (t & -> & Ht).
      apply newRecords_not_seen in Ht. apply Ht. unfold idsOf.
      apply elem_of_list_to_set. exact Hx.
    + rewrite Hdup, Hlen, Hsize. unfold idsOf.
      rewrite (size_list_to_set _ Hnd), length_fmap. lia.
Qed.

(** X15. A run of the import drops no existing transaction: each one is in
    the result with the same fields but, at most, the category.  One with a
    non-blank [categoryOverride] is there unchanged; any other one has the
    category that the rules compute, whatever category it had. *)
Theorem import_keeps_existing (getTime : string -> option Z)
    (existingTransactions : list ParsedTransaction) (csvFiles : list string)
    (result : ImportResult) (t : ParsedTransaction) :
  importTransactions getTime existingTransactions csvFiles = Some result ->
  t ∈ existingTransactions ->
  exists t',
    t' ∈ categorizedTransactions result /\ sameButCategory t t' /\
    (nonBlank (Tx.categoryOverride t) -> t' = t) /\
    (~ nonBlank (Tx.categoryOverride t) -> Tx.category t' = categorizeTransaction t).
Proof.
  intros H Ht. apply import_unfold in H as (_ & -> & _).
  exists (applyRulesTo false t). split; [|split; [|split]].
  - apply list_elem_of_fmap. exists t. split; [reflexivity|].
    rewrite sort_Permutation. apply elem_of_app. left. exact Ht.
  - apply applyRulesTo_frame.
  - apply applyRulesTo_override.
  - intros Hno. unfold applyRulesTo.
    destruct (hasOverride (Tx.categoryOverride t)) eqn:Ho.
    + apply hasOverride_nonBlank in Ho. contradiction.
    + reflexivity.
Qed.

(** ** Persisting *)

Lemma hasOverride_kept (o : option string) :
  hasOverride (if hasOverride o then o else None) = hasOverride o.
Proof. destruct (hasOverride o) eqn:E; [exact E | reflexivity]. Qed.

Lemma plainObject_idem (t : ParsedTransaction) :
  plainObject (plainObject t) = plainObject t.
Proof.
  unfold plainObject. simpl. rewrite !hasOverride_kept.
  destruct (hasOverride (Tx.descriptionOverride t)),
           (hasOverride (Tx.categoryOverride t)); reflexivity.
Qed.

Lemma applyRulesTo_plainObject (flag : bool) (t : ParsedTransaction) :
  applyRulesTo flag (plainObject t) = plainObject (applyRulesTo flag t).
Proof.
  unfold applyRulesTo.
  assert (categorizeTransaction (plainObject t) = categorizeTransaction t) as Hc
    by (apply categorize_ext; reflexivity).
  rewrite Hc.
  change (Tx.categoryOverride (plainObject t))
    with (if hasOverride (Tx.categoryOverride t) then Tx.categoryOverride t else None).
  rewrite hasOverride_kept.
  change (Tx.category (plainObject t)) with (Tx.category t).
  destruct (hasOverride (Tx.categoryOverride t)); [reflexivity|].
  destruct (flag && _); reflexivity.
Qed.

Lemma Sorted_map (getTime : string -> option Z)
    (g : ParsedTransaction -> ParsedTransaction) (l : list ParsedTransaction) :
  keepsIdAndDate g ->
  Sorted (notOlder getTime) l -> Sorted (notOlder getTime) (map g l).
Proof.
  intros Hg. assert (forall a b, notOlder getTime a b ->
                                 notOlder getTime (g a) (g b)) as Hrel.
  { intros a b. unfold notOlder, timeOf.
    rewrite (proj2 (Hg a)), (proj2 (Hg b)). tauto. }
  induction 1 as [|x l Hs IH Hhd]; simpl; constructor; [exact IH|].
  destruct Hhd; simpl; constructor. apply Hrel. assumption.
Qed.

Lemma validDate_map (getTime : string -> option Z)
    (g : ParsedTransaction -> ParsedTransaction) (l : list ParsedTransaction) :
  keepsIdAndDate g ->
  Forall (validDate getTime) (map g l) -> Forall (validDate getTime) l.
Proof.
  intros Hg H. apply Forall_forall. intros t Ht.
  assert (g t ∈ map g l) as Hin by (apply list_elem_of_fmap; eauto).
  apply (proj1 (Forall_forall _ _) H) in Hin.
  unfold validDate, timeOf in *. rewrite (proj2 (Hg t)) in Hin. exact Hin.
Qed.

(** X16. A second run of the import on the same files, with the data that
    the first run handed to [JSON.stringify] as the existing transactions,
    succeeds and produces the same data again, in the same order; this when
    the dates in the result of the first run are all valid.  (The passage of
    the data through the text of the file is not part of the model.) *)
Theorem import_again (getTime : string -> option Z)
    (existingTransactions : list ParsedTransaction) (csvFiles : list string)
    (first : ImportResult) :
  importTransactions getTime existingTransactions csvFiles = Some first ->
  Forall (validDate getTime) (categorizedTransactions first) ->
  exists second,
    importTransactions getTime (jsonData (categorizedTransactions first)) csvFiles
      = Some second /\
    categorizedTransactions second = jsonData (categorizedTransactions first) /\
    jsonData (categorizedTransactions second) = jsonData (categorizedTransactions first).
Proof.
  intros H Hvalid.
  pose proof (import_idsOf _ _ _ _ H) as Hids.
  pose proof (import_unfold _ _ _ _ H) as (Hne & Hout & _).
  destruct (importTransactions getTime (jsonData (categorizedTransactions first)) csvFiles)
    as [second|] eqn:E; [|destruct csvFiles; [congruence | discriminate]].
  exists second. split; [reflexivity|].
  assert (categorizedTransactions second = jsonData (categorizedTransactions first)) as Hsnd.
  { apply import_unfold in E as (_ & -> & _).
    rewrite newRecords_all_seen, app_nil_r.
    - rewrite sort_sorted_id.
      + unfold jsonData. rewrite map_map. rewrite Hout, !map_map. apply map_ext.
        intros t. rewrite applyRulesTo_plainObject, applyRulesTo_compose. reflexivity.
      + apply Sorted_map; [apply plainObject_keeps|].
        rewrite Hout. apply Sorted_map; [apply applyRulesTo_keeps|].
        apply StronglySorted_Sorted, sort_sorted.
        rewrite Hout in Hvalid. apply validDate_map in Hvalid; [|apply applyRulesTo_keeps].
        rewrite sort_Permutation in Hvalid. exact Hvalid.
    - intros t Ht. unfold jsonData.
      rewrite idsOf_map by (intros u; apply plainObject_keeps).
      rewrite Hids. apply elem_of_union. right. unfold idsOf.
      apply elem_of_list_to_set, list_elem_of_fmap. eauto. }
  split; [exact Hsnd|]. rewrite Hsnd. unfold jsonData. rewrite map_map.
  apply map_ext. intros t. apply plainObject_idem.
Qed.

Lemma plainObject_overrides (t : ParsedTransaction) :
  (Tx.categoryOverride (plainObject t) = None \/
   nonBlank (Tx.categoryOverride (plainObject t))) /\
  (Tx.descriptionOverride (plainObject t) = None \/
   nonBlank (Tx.descriptionOverride (plainObject t))).
Proof.
  unfold plainObject. simpl. split.
  - destruct (hasOverride (Tx.categoryOverride t)) eqn:E; [right | left; reflexivity].
    apply hasOverride_nonBlank, E.
  - destruct (hasOverride (Tx.descriptionOverride t)) eqn:E; [right | left; reflexivity].
    apply hasOverride_nonBlank, E.
Qed.

(** X17. The data that [generateJSON] writes: writing it again changes
    nothing, it commutes with [applyRulesToTransactions] and with
    [mergeTransactions], and none of its records has a blank override, an
    override being either absent or non-blank. *)
Theorem jsonData_categorize (transactions : list ParsedTransaction) (flag : bool) :
  jsonData (jsonData transactions) = jsonData transactions /\
  applyRulesToTransactions (jsonData transactions) flag
  = jsonData (applyRulesToTransactions transactions flag) /\
  (forall getTime incoming,
      mergeTransactions getTime (jsonData transactions) (jsonData incoming)
      = jsonData (mergeTransactions getTime transactions incoming)) /\
  (forall p, p ∈ jsonData transactions ->
     (Tx.categoryOverride p = None \/ nonBlank (Tx.categoryOverride p)) /\
     (Tx.descriptionOverride p = None \/ nonBlank (Tx.descriptionOverride p))).
Proof.
  unfold jsonData, applyRulesToTransactions. split; [|split; [|split]].
  - rewrite map_map. apply map_ext. intros t. apply plainObject_idem.
  - rewrite !map_map. apply map_ext. intros t. apply applyRulesTo_plainObject.
  - intros getTime incoming. apply merge_map, plainObject_keeps.
  - intros p Hp. apply list_elem_of_fmap in Hp as (t & -> & _).
    apply plainObject_overrides.
Qed.

(** ** The category check *)

Lemma invalidTransactions_fold (validCategoryIds : list string)
    (transactions : list ParsedTransaction) (entries : list InvalidEntry) :
  fold_left (fun entries t => (entries ++ checkTransaction validCategoryIds t)%list)
            transactions entries
  = (entries ++ concat (map (checkTransaction validCategoryIds) transactions))%list.
Proof.
  revert entries. induction transactions as [|t l IH]; intros entries; simpl.
  - rewrite app_nil_r. reflexivity.
  - rewrite IH, <- app_assoc. reflexivity.
Qed.

Lemma invalidTransactions_concat (validCategoryIds : list string)
    (transactions : list ParsedTransaction) :
  invalidTransactions validCategoryIds transactions
  = concat (map (checkTransaction validCategoryIds) transactions).
Proof. unfold invalidTransactions. rewrite invalidTransactions_fold. reflexivity. Qed.

Lemma checkTransaction_entry (validCategoryIds : list string) (t : ParsedTransaction)
    (e : InvalidEntry) :
  e ∈ checkTransaction validCategoryIds t <->
  transaction e = t /\ (invalidCategory e ∉ validCategoryIds) /\
  match field e with
  | field_category => invalidCategory e = Tx.category t
  | field_categoryOverride =>
      Tx.categoryOverride t = Some (invalidCategory e) /\
      JS.trim (invalidCategory e) <> ""
  end.
Proof.
  unfold checkTransaction. rewrite elem_of_app. split.
  - intros [He|He].
    + destruct (bool_decide (Tx.category t ∈ validCategoryIds)) eqn:Ev;
        [inversion He|].
      apply list_elem_of_singleton in He as ->. simpl.
      apply bool_decide_eq_false in Ev. auto.
    + destruct (Tx.categoryOverride t) as [override|] eqn:Eo; [|inversion He].
      destruct (hasOverride (Some override)) eqn:Eh; [|inversion He].
      destruct (bool_decide (override ∈ validCategoryIds)) eqn:Ev; [inversion He|].
      apply list_elem_of_singleton in He as ->. simpl.
      apply bool_decide_eq_false in Ev.
      apply hasOverride_nonBlank in Eh as (s & [= <-] & Hs). auto.
  - destruct e as [t' c f]. simpl. intros (-> & Hc & Hf). destruct f.
    + left. subst c. rewrite bool_decide_eq_false_2 by exact Hc. left.
    + right. destruct Hf as [Ho Hs]. rewrite Ho.
      assert (hasOverride (Some c) = true) as ->
        by (apply hasOverride_nonBlank; exists c; auto).
      rewrite bool_decide_eq_false_2 by exact Hc. left.
Qed.

Lemma invalidTransactions_entry (validCategoryIds : list string)
    (transactions : list ParsedTransaction) (e : InvalidEntry) :
  e ∈ invalidTransactions validCategoryIds transactions <->
  transaction e ∈ transactions /\ (invalidCategory e ∉ validCategoryIds) /\
  match field e with
  | field_category => invalidCategory e = Tx.category (transaction e)
  | field_categoryOverride =>
      Tx.categoryOverride (transaction e) = Some (invalidCategory e) /\
      JS.trim (invalidCategory e) <> ""
  end.
Proof.
  rewrite invalidTransactions_concat. split.
  - intros He. apply list_elem_of_In, in_concat in He as (entries & Hentries & He).
    apply list_elem_of_In, list_elem_of_fmap in Hentries as (t & -> & Ht).
    apply list_elem_of_In in He.
    apply checkTransaction_entry in He as (Htr & Hrest). rewrite Htr. auto.
  - intros (Ht & Hrest). apply list_elem_of_In, in_concat.
    exists (checkTransaction validCategoryIds (transaction e)). split.
    + apply list_elem_of_In, list_elem_of_fmap. eauto.
    + apply list_elem_of_In, checkTransaction_entry. auto.
Qed.

(** X18. The list of invalid entries that the category check builds: an
    entry is in it exactly when its transaction is in the list, its category
    is no valid id, and it is either the category of the transaction or its
    non-blank [categoryOverride].  The list is empty exactly when every
    category and every non-blank override is a valid id, and it has at most
    two entries per transaction. *)
Theorem invalid_entries (validCategoryIds : list string)
    (transactions : list ParsedTransaction) :
  (forall e, e ∈ invalidTransactions validCategoryIds transactions <->
     transaction e ∈ transactions /\ (invalidCategory e ∉ validCategoryIds) /\
     match field e with
     | field_category => invalidCategory e = Tx.category (transaction e)
     | field_categoryOverride =>
         Tx.categoryOverride (transaction e) = Some (invalidCategory e) /\
         JS.trim (invalidCategory e) <> ""
     end) /\
  (invalidTransactions validCategoryIds transactions = [] <->
   forall t, t ∈ transactions ->
     Tx.category t ∈ validCategoryIds /\
     forall override, Tx.categoryOverride t = Some override -> JS.trim override <> "" ->
                      override ∈ validCategoryIds) /\
  (length (invalidTransactions validCategoryIds transactions)
   <= 2 * length transactions)%nat.
Proof.
  split; [apply invalidTransactions_entry|]. split.
  - split.
    + intros Hnone t Ht. split.
      * destruct (decide (Tx.category t ∈ validCategoryIds)) as [Hv|Hv]; [exact Hv|].
        assert ({| transaction := t; invalidCategory := Tx.category t;
                   field := field_category |}
                ∈ invalidTransactions validCategoryIds transactions) as He
          by (apply invalidTransactions_entry; simpl; auto).
        rewrite Hnone in He. inversion He.
      * intros override Ho Hs.
        destruct (decide (override ∈ validCategoryIds)) as [Hv|Hv]; [exact Hv|].
        assert ({| transaction := t; invalidCategory := override;
                   field := field_categoryOverride |}
                ∈ invalidTransactions validCategoryIds transactions) as He
          by (apply invalidTransactions_entry; simpl; auto).
        rewrite Hnone in He. inversion He.
    + intros Hall.
      destruct (invalidTransactions validCategoryIds transactions) as [|e l] eqn:E;
        [reflexivity|].
      assert (e ∈ invalidTransactions validCategoryIds transactions) as He
        by (rewrite E; left).
      apply invalidTransactions_entry in He as (Ht & Hc & Hf).
      destruct (Hall _ Ht) as [Hcat Hover]. destruct (field e).
      * rewrite Hf in Hc. contradiction.
      * destruct Hf as [Ho Hs]. exfalso. apply Hc, (Hover _ Ho Hs).
  - rewrite invalidTransactions_concat.
    induction transactions as [|t l IH]; simpl; [lia|].
    rewrite length_app.
    assert (length (checkTransaction validCategoryIds t) <= 2)%nat; [|lia].
    unfold checkTransaction. rewrite length_app.
    destruct (bool_decide _); destruct (Tx.categoryOverride t);
      try destruct (_ && _); simpl; lia.
Qed.

(** X19. When the valid ids include the ids of the category list, every
    entry that the category check reports after a run of
    [applyRulesToTransactions] in the mode that recomputes is for a
    transaction of the input with a non-blank [categoryOverride]: the rules
    themselves never produce an invalid category. *)
Theorem invalid_after_rules (validCategoryIds : list string)
    (transactions : list ParsedTransaction) (e : InvalidEntry) :
  (forall c, c ∈ categoryIds -> c ∈ validCategoryIds) ->
  e ∈ invalidTransactions validCategoryIds (applyRulesToTransactions transactions false) ->
  transaction e ∈ transactions /\ nonBlank (Tx.categoryOverride (transaction e)).
Proof.
  intros Hvalid He. apply invalidTransactions_entry in He as (Ht & Hc & Hf).
  apply list_elem_of_fmap in Ht as (t & Hte & Ht).
  assert (nonBlank (Tx.categoryOverride (transaction e))) as Hnb.
  { destruct (field e).
    - rewrite Hte. unfold applyRulesTo.
      destruct (hasOverride (Tx.categoryOverride t)) eqn:Ho;
        [apply hasOverride_nonBlank, Ho|].
      exfalso. apply Hc. rewrite Hf, Hte. unfold applyRulesTo. rewrite Ho. simpl.
      apply Hvalid, categorize_catalog.
    - destruct Hf as [Ho Hs]. exists (invalidCategory e). auto. }
  split; [|exact Hnb].
  rewrite Hte in Hnb |- *. unfold applyRulesTo in *.
  destruct (hasOverride (Tx.categoryOverride t)) eqn:Ho; [exact Ht|].
  simpl in Hnb. apply hasOverride_nonBlank in Hnb. congruence.
Qed.

(** X21. [getEffectiveCategory] against the override test of the rules and
    of [generateJSON].  For a non-blank [categoryOverride] the effective
    category is the override, before and after the data is written.  For no
    override, or an empty one, it is the category.  For an override that is
    not empty but blank the two differ: the effective category is the blank
    override, yet the rules treat the transaction as not overridden and
    recompute its category, and once written the override is gone and the
    effective category is the category. *)
Theorem effective_category (t : ParsedTransaction) :
  (nonBlank (Tx.categoryOverride t) ->
     Tx.categoryOverride t = Some (getEffectiveCategory t) /\
     getEffectiveCategory (plainObject t) = getEffectiveCategory t) /\
  (Tx.categoryOverride t = None \/ Tx.categoryOverride t = Some "" ->
     getEffectiveCategory t = Tx.category t /\
     getEffectiveCategory (plainObject t) = Tx.category t) /\
  (forall override, Tx.categoryOverride t = Some override -> override <> "" ->
     JS.trim override = "" ->
     getEffectiveCategory t = override /\
     getEffectiveCategory (plainObject t) = Tx.category t /\
     Tx.category (applyRulesTo false t) = categorizeTransaction t).
Proof.
  unfold getEffectiveCategory, plainObject, applyRulesTo. simpl.
  split; [|split].
  - intros Hnb. pose proof Hnb as Hh. apply hasOverride_nonBlank in Hh. rewrite Hh.
    destruct Hnb as (s & -> & Hs). destruct s; [contradiction|]. split; reflexivity.
  - intros [->| ->]; split; reflexivity.
  - intros override -> Hne Hblank.
    assert (hasOverride (Some override) = false) as ->.
    { apply not_true_iff_false. intros Hh.
      apply hasOverride_nonBlank in Hh as (s & [= <-] & Hs). contradiction. }
    destruct override; [contradiction|]. repeat split.
Qed.

Lemma transform_plain (csvRows : list CSVRow) (t : ParsedTransaction) :
  t ∈ transformToTransactions csvRows ->
  Tx.category t = "pendiente" /\ Tx.categoryOverride t = None /\
  Tx.descriptionOverride t = None.
Proof.
  unfold transformToTransactions, transformRun.
  destruct (transformStep_fold csvRows {| transactions := []; errorLog := [] |})
    as [-> _]. simpl.
  intros Hin. apply list_elem_of_omap in Hin as (row & Hrow & Hb).
  unfold built, buildTransaction in Hb.
  destruct (convertDate (valorDate row)) as [date|]; simpl in Hb; [|discriminate].
  destruct (if JS.truthy (fecha row) then convertDate (fecha row) else Return date);
    simpl in Hb; [|discriminate].
  destruct (parseAmount (importe row)); simpl in Hb; [|discriminate].
  injection Hb as <-. repeat split.
Qed.

Lemma builtFrom_plain (csvFiles : list string) (t : ParsedTransaction) :
  t ∈ builtFrom csvFiles ->
  Tx.category t = "pendiente" /\ Tx.categoryOverride t = None /\
  Tx.descriptionOverride t = None.
Proof.
  unfold builtFrom. intros Ht.
  apply list_elem_of_In, in_concat in Ht as (l & Hl & Ht).
  apply list_elem_of_In, list_elem_of_fmap in Hl as (content & -> & _).
  apply list_elem_of_In in Ht. apply (transform_plain _ _ Ht).
Qed.

Lemma import_records (getTime : string -> option Z)
    (existingTransactions : list ParsedTransaction) (csvFiles : list string)
    (result : ImportResult) (t' : ParsedTransaction) :
  importTransactions getTime existingTransactions csvFiles = Some result ->
  t' ∈ categorizedTransactions result ->
  exists t, t' = applyRulesTo false t /\
            (t ∈ existingTransactions \/
             (t ∈ builtFrom csvFiles /\ (Tx.id t ∉ idsOf existingTransactions))).
Proof.
  intros H Ht'. apply import_unfold in H as (_ & Hout & _). rewrite Hout in Ht'.
  apply list_elem_of_fmap in Ht' as (t & -> & Ht). exists t. split; [reflexivity|].
  rewrite sort_Permutation in Ht. apply elem_of_app in Ht as [Ht|Ht]; [left; exact Ht|].
  right. split.
  - eapply elem_of_sublist; [exact Ht | apply newRecords_sublist].
  - apply (newRecords_not_seen _ _ _ Ht).
Qed.

(** X20. When the valid ids include the ids of the category list, every
    entry that the category check reports on the data written by a run of
    the import is for an existing transaction with a non-blank
    [categoryOverride], written as it was: no transaction built from a
    statement file is ever reported. *)
Theorem invalid_after_import (getTime : string -> option Z)
    (validCategoryIds : list string)
    (existingTransactions : list ParsedTransaction) (csvFiles : list string)
    (result : ImportResult) (e : InvalidEntry) :
  (forall c, c ∈ categoryIds -> c ∈ validCategoryIds) ->
  importTransactions getTime existingTransactions csvFiles = Some result ->
  e ∈ invalidTransactions validCategoryIds (jsonData (categorizedTransactions result)) ->
  exists t, t ∈ existingTransactions /\ nonBlank (Tx.categoryOverride t) /\
            transaction e = plainObject t.
Proof.
  intros Hvalid H He. apply invalidTransactions_entry in He as (Ht & Hc & Hf).
  apply list_elem_of_fmap in Ht as (t' & Hte & Ht').
  destruct (import_records _ _ _ _ _ H Ht') as (t & -> & Hfrom).
  destruct (hasOverride (Tx.categoryOverride t)) eqn:Ho.
  - assert (applyRulesTo false t = t) as Hsame
      by (unfold applyRulesTo; rewrite Ho; reflexivity).
    rewrite Hsame in Hte. exists t. split; [|split].
    + destruct Hfrom as [Hex|[Hb _]]; [exact Hex|].
      apply builtFrom_plain in Hb as (_ & Hnone & _). rewrite Hnone in Ho. discriminate.
    + apply hasOverride_nonBlank, Ho.
    + exact Hte.
  - exfalso. rewrite Hte in Hf.
    assert (Tx.categoryOverride (plainObject (applyRulesTo false t)) = None) as Hnone.
    { rewrite <- applyRulesTo_plainObject. unfold applyRulesTo.
      change (Tx.categoryOverride (plainObject t))
        with (if hasOverride (Tx.categoryOverride t) then Tx.categoryOverride t else None).
      rewrite Ho. simpl. rewrite Ho. reflexivity. }
    destruct (field e).
    + apply Hc. rewrite Hf. unfold applyRulesTo. rewrite Ho. simpl.
      apply Hvalid, categorize_catalog.
    + destruct Hf as [Hf _]. rewrite Hnone in Hf. discriminate.
Qed.

(** ** The pending check *)

Lemma isPending_spec (t : ParsedTransaction) :
  CheckPending.isPending t
  = String.eqb (Tx.category t) "pendiente" && negb (hasOverride (Tx.categoryOverride t)).
Proof.
  unfold CheckPending.isPending, hasOverride.
  destruct (Tx.categoryOverride t) as [o|]; [|reflexivity].
  rewrite negb_andb. reflexivity.
Qed.

Lemma filter_three {A : Type} (p q r : A -> bool) (l : list A) :
  (forall x, (p x && q x = false) /\ (p x && r x = false) /\ (q x && r x = false) /\
             (p x || q x || r x = true)) ->
  length l = (length (List.filter p l) + length (List.filter q l)
              + length (List.filter r l))%nat.
Proof.
  intros H. induction l as [|x l IH]; [reflexivity|]. simpl.
  destruct (H x) as (H1 & H2 & H3 & H4).
  destruct (p x), (q x), (r x); simpl in *; try discriminate; lia.
Qed.

Lemma sortInsert_ext {A : Type} (c1 c2 : A -> A -> option Z) (x : A) (l : list A) :
  (forall a b, JS.SortCompare c1 a b = JS.SortCompare c2 a b) ->
  JS.sortInsert c1 x l = JS.sortInsert c2 x l.
Proof.
  intros H. induction l as [|y l IH]; [reflexivity|]. simpl. rewrite H, IH. reflexivity.
Qed.

Lemma sort_ext {A : Type} (c1 c2 : A -> A -> option Z) (l : list A) :
  (forall a b, JS.SortCompare c1 a b = JS.SortCompare c2 a b) ->
  JS.sort c1 l = JS.sort c2 l.
Proof.
  intros H. induction l as [|x l IH]; [reflexivity|].
  unfold JS.sort in *. simpl. rewrite IH. apply sortInsert_ext, H.
Qed.

Lemma compareRecent_SortCompare (getTime : string -> option Z) (a b : ParsedTransaction) :
  JS.SortCompare (CheckPending.compareRecent getTime) a b
  = JS.SortCompare (compareByDate getTime) a b.
Proof.
  unfold JS.SortCompare, CheckPending.compareRecent, compareByDate.
  destruct (getTime (Tx.date a)) as [ta|], (getTime (Tx.date b)) as [tb|];
    try reflexivity.
  destruct (tb =? ta)%Z eqn:E; simpl; [|reflexivity]. apply Z.eqb_eq in E. lia.
Qed.

Lemma elem_of_filter_bool {A : Type} (p : A -> bool) (l : list A) (x : A) :
  x ∈ List.filter p l <-> x ∈ l /\ p x = true.
Proof. rewrite !list_elem_of_In. apply filter_In. Qed.

(** X22. The report of the pending check: the number of categorized
    transactions it prints is the number of transactions with no non-blank
    override and a category other than ['pendiente'], so it is never
    negative.  The transactions it lists are at most 20, all of them pending
    ones of the input with no non-blank override; when the dates are valid
    they are in descending order of date and none of the pending ones left
    out is more recent than a listed one. *)
Theorem pending_report (getTime : string -> option Z)
    (transactions : list ParsedTransaction) :
  CheckPending.categorizedCount (CheckPending.report getTime transactions)
  = Z.of_nat (length (List.filter
       (fun t => negb (String.eqb (Tx.category t) "pendiente")
                 && negb (hasOverride (Tx.categoryOverride t))) transactions)) /\
  length (CheckPending.sortedPending (CheckPending.report getTime transactions))
  = Nat.min 20 (CheckPending.pendingCount (CheckPending.report getTime transactions)) /\
  (forall t, t ∈ CheckPending.sortedPending (CheckPending.report getTime transactions) ->
     t ∈ transactions /\ Tx.category t = "pendiente" /\
     ~ nonBlank (Tx.categoryOverride t)) /\
  (Forall (validDate getTime) transactions ->
   StronglySorted (notOlder getTime)
     (CheckPending.sortedPending (CheckPending.report getTime transactions)) /\
   forall shown t,
     shown ∈ CheckPending.sortedPending (CheckPending.report getTime transactions) ->
     t ∈ transactions -> Tx.category t = "pendiente" ->
     ~ nonBlank (Tx.categoryOverride t) ->
     t ∉ CheckPending.sortedPending (CheckPending.report getTime transactions) ->
     notOlder getTime shown t).
Proof.
  unfold CheckPending.report. simpl.
  set (pendingTransactions := List.filter CheckPending.isPending transactions).
  set (sorted := JS.sort (CheckPending.compareRecent getTime) pendingTransactions).
  assert (sorted ≡ₚ pendingTransactions) as Hperm by apply sort_Permutation.
  assert (forall t, t ∈ sorted <->
            t ∈ transactions /\ Tx.category t = "pendiente" /\
            ~ nonBlank (Tx.categoryOverride t)) as Hsorted.
  { intros t. rewrite Hperm. unfold pendingTransactions.
    rewrite elem_of_filter_bool, isPending_spec, andb_true_iff, negb_true_iff.
    rewrite String.eqb_eq, <- not_true_iff_false, hasOverride_nonBlank. tauto. }
  split; [|split; [|split]].
  - rewrite (filter_three CheckPending.isPending
               (fun t => hasOverride (Tx.categoryOverride t))
               (fun t => negb (String.eqb (Tx.category t) "pendiente")
                         && negb (hasOverride (Tx.categoryOverride t))) transactions).
    + fold pendingTransactions. lia.
    + intros x. rewrite isPending_spec.
      destruct (String.eqb (Tx.category x) "pendiente"),
               (hasOverride (Tx.categoryOverride x)); repeat split.
  - rewrite length_take. fold sorted. rewrite Hperm. reflexivity.
  - intros t Ht. apply Hsorted. eapply elem_of_sublist; [exact Ht|].
    apply sublist_take.
  - intros Hvalid.
    assert (StronglySorted (notOlder getTime) sorted) as Hs.
    { unfold sorted.
      rewrite (sort_ext _ (compareByDate getTime))
        by (intros a b; apply compareRecent_SortCompare).
      apply sort_sorted. apply Forall_forall. intros t Ht.
      apply elem_of_filter_bool in Ht as [Ht _].
      apply (proj1 (Forall_forall _ _) Hvalid _ Ht). }
    rewrite <- (take_drop 20 sorted) in Hs.
    apply StronglySorted_app in Hs as (Hcross & Htake & _).
    split; [exact Htake|].
    intros shown t Hshown Ht Hp Ho Hnot. apply Hcross; [exact Hshown|].
    assert (t ∈ sorted) as Hin by (apply Hsorted; auto).
    rewrite <- (take_drop 20 sorted) in Hin.
    apply elem_of_app in Hin as [Hin|Hin]; [contradiction | exact Hin].
Qed.

(** ** A run on a statement file *)

Lemma import_ids_witness :
  NoDup (Tx.id <$> categorizedTransactions firstImport) /\
  duplicateIds firstImport = 0%nat.
Proof.
  apply (import_ids JS.isoDateTime [overridden] [statement] firstImport).
  - vm_compute. reflexivity.
  - apply NoDup_singleton.
Defined.

Lemma import_keeps_existing_witness :
  exists t',
    t' ∈ categorizedTransactions firstImport /\ sameButCategory overridden t' /\
    (nonBlank (Tx.categoryOverride overridden) -> t' = overridden) /\
    (~ nonBlank (Tx.categoryOverride overridden) ->
     Tx.category t' = categorizeTransaction overridden).
Proof.
  apply (import_keeps_existing JS.isoDateTime [overridden] [statement] firstImport).
  - vm_compute. reflexivity.
  - apply list_elem_of_here.
Defined.

Lemma import_again_witness :
  exists second,
    importTransactions JS.isoDateTime (jsonData (categorizedTransactions firstImport))
                       [statement] = Some second /\
    categorizedTransactions second = jsonData (categorizedTransactions firstImport) /\
    jsonData (categorizedTransactions second)
    = jsonData (categorizedTransactions firstImport).
Proof.
  apply (import_again JS.isoDateTime [overridden] [statement] firstImport).
  - vm_compute. reflexivity.
  - apply Forall_forall. intros t Ht. vm_compute in Ht.
    repeat (apply elem_of_cons in Ht as [->|Ht]; [eexists; vm_compute; reflexivity|]).
    inversion Ht.
Defined.

Lemma invalid_after_rules_witness :
  overridden ∈ [overridden] /\ nonBlank (Tx.categoryOverride overridden).
Proof.
  apply (invalid_after_rules categoryIds [overridden] giftsEntry).
  - intros c Hc. exact Hc.
  - vm_compute. apply list_elem_of_here.
Defined.

Lemma invalid_after_import_witness :
  exists t, t ∈ [overridden] /\ nonBlank (Tx.categoryOverride t) /\
            overridden = plainObject t.
Proof.
  apply (invalid_after_import JS.isoDateTime categoryIds [overridden] [statement]
           firstImport giftsEntry).
  - intros c Hc. exact Hc.
  - vm_compute. reflexivity.
  - vm_compute. apply list_elem_of_here.
Defined.
